(** * Calcium graphing renderer

    A shallow embedding of the viewport and resampling logic of
    [src/renderer/Render.ts] (class [Render]): the handler of the messages
    coming back from the calculation worker, the sampling loops of
    [calculatePoints], the pan and zoom operations and the grid-spacing
    adaptation.

    Numbers.  A JavaScript [number] is modelled as an exact rational ([Q]):
    rounding, infinities and NaN are not modelled.  Comparisons are the
    boolean comparisons of [Q]; [===] on numbers is [Qeq_bool].  Results that
    depend on a quotient are stated for a non-zero divisor.  What a loop of
    [calculatePoints] asks for is described by its run (where it starts, the
    step it adds, the test it stops at), not by a count of its samples; the
    centre and the scale a drag, a wheel step or a pinch leaves are given by
    the expression the source computes.

    Effects.  The renderer is a record [Render] holding the fields of the
    class (and the fields it inherits from [Graphics] and reads or writes
    here).  [calculatingWorker.postMessage] appends to the log [posted].  A
    method is a function [Render -> outcome Render]; a loop takes fuel and
    [Diverges] when it runs out of it; reading a property of [undefined] is
    [TypeError]. *)

From Stdlib Require Import QArith Qround Lqa Lia List Sorted String Bool ZArith.
Import ListNotations.
Local Open Scope Q_scope.

(** ** Numbers *)

Definition Qlt_bool (x y : Q) : bool := negb (Qle_bool y x).

(** [export const delta: number = .01] *)
Definition delta : Q := 1 # 100.

(** ** Enumerations of [@/types] *)

(** Modelled from the spec: the enumeration [FunctionInputtingType] of
    [@/types], whose file is not part of the sources; the spec gives a
    function the "mode: NORMAL | POLAR". *)
Inductive FunctionInputtingType : Set := NORMAL | POLAR.

(** Modelled from the spec: the enumeration [MovingDirection] of [@/types],
    not part of the sources; the spec has a pan "moving left" or "moving
    right", and the source names [LEFT] and [RIGHT]. *)
Inductive MovingDirection : Set := LEFT | RIGHT.

(** Modelled from the spec: the enumeration [ZoomDirection] of [@/types],
    not part of the sources; the spec has "zoom in" and "zoom out", and the
    source names [ZOOM_IN] and [ZOOM_OUT]. *)
Inductive ZoomDirection : Set := ZOOM_IN | ZOOM_OUT.

Definition is_NORMAL (m : FunctionInputtingType) : bool :=
  match m with NORMAL => true | POLAR => false end.

Definition is_POLAR (m : FunctionInputtingType) : bool :=
  match m with POLAR => true | NORMAL => false end.

(** ** What the renderer takes from its host

    The compiled token tree and the functions of [Math] are used by the
    renderer but not defined by it: the serialised tree of a worker message
    ([RawRoot]), the tree object ([RootToken]) and [RootToken.create], and
    [Math.cos], [Math.sin], [Math.sqrt]. *)

Class Host : Type := {
  RawRoot : Type;
  RootToken : Type;
  RootToken_create : RawRoot -> RootToken;
  Math_cos : Q -> Q;
  Math_sin : Q -> Q;
  Math_sqrt : Q -> Q
}.

(** ** Outcomes *)

Inductive outcome (A : Type) : Type :=
| Done (a : A)
| TypeError
| Diverges.

Arguments Done {A} a.
Arguments TypeError {A}.
Arguments Diverges {A}.

Definition bind {A B : Type} (o : outcome A) (k : A -> outcome B) : outcome B :=
  match o with
  | Done a => k a
  | TypeError => TypeError
  | Diverges => Diverges
  end.

Notation "x <- c ;; k" := (bind c (fun x => k))
  (at level 100, c at next level, right associativity).

(** ** Data *)

(** Modelled from the spec: the class [Point] of [@/renderer/Graphics],
    whose file is not part of the sources; the spec has a point be "{x, y}",
    immutable once created.  [createPoint x y] builds one. *)
Record Point : Type := createPoint { px : Q; py : Q }.

(** The part of a [DOMRect] the handlers read. *)
Record DOMRect : Type := { left : Q; top : Q }.

Section Renderer.

Context {host : Host}.

(** Modelled from the spec: the class [Function] of [@/renderer/Function],
    whose file is not part of the sources; the spec has it be "{id, mode,
    root}" with a non-negative integer id, and the source builds it by
    [new Function(id, mode, root)]. *)
Record Function : Type := newFunction {
  id : N;
  mode : FunctionInputtingType;
  root : RootToken
}.

(** The message [calculatePoints] posts to the calculation worker:
    [{ type: "evaluate", id, mode, root, x, operate }]. *)
Record Request : Type := {
  req_type : string;
  req_id : N;
  req_mode : FunctionInputtingType;
  req_root : RootToken;
  req_x : Q;
  req_operate : string
}.

(** The data of a message coming back from the calculation worker
    ([e.data]); a field a message does not carry is never read. *)
Record Response : Type := {
  res_type : string;
  res_id : N;
  res_index : nat;
  res_mode : FunctionInputtingType;
  res_root : RawRoot;
  res_x : Q;
  res_y : Q;
  res_operate : string
}.

(** The renderer.  The first six fields are those of the base class
    [Graphics] (not part of the sources) that [Render] reads or writes: the
    width of the canvas, the pixel ratio, and the camera of the spec, "center:
    pixel-space point, scale: pixels-per-unit, spacing: grid unit", with the
    position of the cursor.  The others are the fields [Render] declares.
    [posted] logs the messages posted to [calculatingWorker]. *)
Record Render : Type := {
  canvas_width : Q;
  ratio : Q;
  center : Point;
  scale : Q;
  spacing : Q;
  mousePoint : Point;
  mouseDown : bool;
  mouseDX : Q;
  mouseDY : Q;
  cameraPosition : Q * Q;
  zoomingScale : option Q;
  lastZoomingSize : option Q;
  functionList : list Function;
  displayedPoints : list Point;
  posted : list Request
}.

Definition set_center (v : Point) (st : Render) : Render :=
  {| canvas_width := canvas_width st; ratio := ratio st; center := v;
     scale := scale st; spacing := spacing st; mousePoint := mousePoint st;
     mouseDown := mouseDown st; mouseDX := mouseDX st; mouseDY := mouseDY st;
     cameraPosition := cameraPosition st; zoomingScale := zoomingScale st;
     lastZoomingSize := lastZoomingSize st; functionList := functionList st;
     displayedPoints := displayedPoints st; posted := posted st |}.

Definition set_scale (v : Q) (st : Render) : Render :=
  {| canvas_width := canvas_width st; ratio := ratio st; center := center st;
     scale := v; spacing := spacing st; mousePoint := mousePoint st;
     mouseDown := mouseDown st; mouseDX := mouseDX st; mouseDY := mouseDY st;
     cameraPosition := cameraPosition st; zoomingScale := zoomingScale st;
     lastZoomingSize := lastZoomingSize st; functionList := functionList st;
     displayedPoints := displayedPoints st; posted := posted st |}.

Definition set_spacing (v : Q) (st : Render) : Render :=
  {| canvas_width := canvas_width st; ratio := ratio st; center := center st;
     scale := scale st; spacing := v; mousePoint := mousePoint st;
     mouseDown := mouseDown st; mouseDX := mouseDX st; mouseDY := mouseDY st;
     cameraPosition := cameraPosition st; zoomingScale := zoomingScale st;
     lastZoomingSize := lastZoomingSize st; functionList := functionList st;
     displayedPoints := displayedPoints st; posted := posted st |}.

Definition set_mousePoint (v : Point) (st : Render) : Render :=
  {| canvas_width := canvas_width st; ratio := ratio st; center := center st;
     scale := scale st; spacing := spacing st; mousePoint := v;
     mouseDown := mouseDown st; mouseDX := mouseDX st; mouseDY := mouseDY st;
     cameraPosition := cameraPosition st; zoomingScale := zoomingScale st;
     lastZoomingSize := lastZoomingSize st; functionList := functionList st;
     displayedPoints := displayedPoints st; posted := posted st |}.

Definition set_mouseDown (v : bool) (st : Render) : Render :=
  {| canvas_width := canvas_width st; ratio := ratio st; center := center st;
     scale := scale st; spacing := spacing st; mousePoint := mousePoint st;
     mouseDown := v; mouseDX := mouseDX st; mouseDY := mouseDY st;
     cameraPosition := cameraPosition st; zoomingScale := zoomingScale st;
     lastZoomingSize := lastZoomingSize st; functionList := functionList st;
     displayedPoints := displayedPoints st; posted := posted st |}.

Definition set_mouseDX (v : Q) (st : Render) : Render :=
  {| canvas_width := canvas_width st; ratio := ratio st; center := center st;
     scale := scale st; spacing := spacing st; mousePoint := mousePoint st;
     mouseDown := mouseDown st; mouseDX := v; mouseDY := mouseDY st;
     cameraPosition := cameraPosition st; zoomingScale := zoomingScale st;
     lastZoomingSize := lastZoomingSize st; functionList := functionList st;
     displayedPoints := displayedPoints st; posted := posted st |}.

Definition set_mouseDY (v : Q) (st : Render) : Render :=
  {| canvas_width := canvas_width st; ratio := ratio st; center := center st;
     scale := scale st; spacing := spacing st; mousePoint := mousePoint st;
     mouseDown := mouseDown st; mouseDX := mouseDX st; mouseDY := v;
     cameraPosition := cameraPosition st; zoomingScale := zoomingScale st;
     lastZoomingSize := lastZoomingSize st; functionList := functionList st;
     displayedPoints := displayedPoints st; posted := posted st |}.

Definition set_cameraPosition (v : Q * Q) (st : Render) : Render :=
  {| canvas_width := canvas_width st; ratio := ratio st; center := center st;
     scale := scale st; spacing := spacing st; mousePoint := mousePoint st;
     mouseDown := mouseDown st; mouseDX := mouseDX st; mouseDY := mouseDY st;
     cameraPosition := v; zoomingScale := zoomingScale st;
     lastZoomingSize := lastZoomingSize st; functionList := functionList st;
     displayedPoints := displayedPoints st; posted := posted st |}.

Definition set_zoomingScale (v : option Q) (st : Render) : Render :=
  {| canvas_width := canvas_width st; ratio := ratio st; center := center st;
     scale := scale st; spacing := spacing st; mousePoint := mousePoint st;
     mouseDown := mouseDown st; mouseDX := mouseDX st; mouseDY := mouseDY st;
     cameraPosition := cameraPosition st; zoomingScale := v;
     lastZoomingSize := lastZoomingSize st; functionList := functionList st;
     displayedPoints := displayedPoints st; posted := posted st |}.

Definition set_lastZoomingSize (v : option Q) (st : Render) : Render :=
  {| canvas_width := canvas_width st; ratio := ratio st; center := center st;
     scale := scale st; spacing := spacing st; mousePoint := mousePoint st;
     mouseDown := mouseDown st; mouseDX := mouseDX st; mouseDY := mouseDY st;
     cameraPosition := cameraPosition st; zoomingScale := zoomingScale st;
     lastZoomingSize := v; functionList := functionList st;
     displayedPoints := displayedPoints st; posted := posted st |}.

Definition set_functionList (v : list Function) (st : Render) : Render :=
  {| canvas_width := canvas_width st; ratio := ratio st; center := center st;
     scale := scale st; spacing := spacing st; mousePoint := mousePoint st;
     mouseDown := mouseDown st; mouseDX := mouseDX st; mouseDY := mouseDY st;
     cameraPosition := cameraPosition st; zoomingScale := zoomingScale st;
     lastZoomingSize := lastZoomingSize st; functionList := v;
     displayedPoints := displayedPoints st; posted := posted st |}.

Definition set_displayedPoints (v : list Point) (st : Render) : Render :=
  {| canvas_width := canvas_width st; ratio := ratio st; center := center st;
     scale := scale st; spacing := spacing st; mousePoint := mousePoint st;
     mouseDown := mouseDown st; mouseDX := mouseDX st; mouseDY := mouseDY st;
     cameraPosition := cameraPosition st; zoomingScale := zoomingScale st;
     lastZoomingSize := lastZoomingSize st; functionList := functionList st;
     displayedPoints := v; posted := posted st |}.

Definition set_posted (v : list Request) (st : Render) : Render :=
  {| canvas_width := canvas_width st; ratio := ratio st; center := center st;
     scale := scale st; spacing := spacing st; mousePoint := mousePoint st;
     mouseDown := mouseDown st; mouseDX := mouseDX st; mouseDY := mouseDY st;
     cameraPosition := cameraPosition st; zoomingScale := zoomingScale st;
     lastZoomingSize := lastZoomingSize st; functionList := functionList st;
     displayedPoints := displayedPoints st; posted := v |}.

(** [calculatingWorker.postMessage(msg)] *)
Definition postMessage (msg : Request) (st : Render) : Render :=
  set_posted (posted st ++ [msg]) st.

(** The message of one sample. *)
Definition evaluate (func : Function) (x : Q) (operate : string) : Request :=
  {| req_type := "evaluate"; req_id := id func; req_mode := mode func;
     req_root := root func; req_x := x; req_operate := operate |}.

(** ** Grid spacing: [scalingAdapt] *)

Definition scalingAdapt (st : Render) : Render :=
  if Qle_bool (scale st * spacing st) 66 then
    if Qeq_bool (spacing st) 2
    then set_spacing 5 st
    else set_spacing (spacing st * 2) st
  else if Qle_bool 138 (scale st * spacing st) then
    if Qeq_bool (spacing st) 5
    then set_spacing 2 st
    else set_spacing (spacing st / 2) st
  else st.

(** ** Containers of [@/utils]

    The classes [List] (the function list) and [Collection] (the point
    stream) are not part of the sources.  The spec gives the point stream
    "append, prepend, clear, indexed read, length query" and has
    [compile-and-set] replace "the Function previously at index".  Both are
    lists here. *)

(** Modelled from the spec: [List.add], missing with [@/utils/List]; a
    function is registered at the end of the list. *)
Definition List_add {A : Type} (x : A) (l : list A) : list A := l ++ [x].

(** Modelled from the spec: [List.get], missing with [@/utils/List]; an
    indexed read, [undefined] ([None]) where the list holds nothing. *)
Definition List_get {A : Type} (l : list A) (index : nat) : option A :=
  nth_error l index.

(** Modelled from the spec: [List.set], missing with [@/utils/List]; it
    replaces what the list holds at [index]. *)
Fixpoint List_set {A : Type} (l : list A) (index : nat) (x : A) : list A :=
  match l, index with
  | [], _ => []
  | _ :: t, O => x :: t
  | h :: t, S n => h :: List_set t n x
  end.

(** Modelled from the spec: [List.getLast], missing with [@/utils/List];
    the element added last, [undefined] ([None]) on an empty list. *)
Definition List_getLast {A : Type} (l : list A) : option A :=
  match l with
  | [] => None
  | h :: t => Some (last t h)
  end.

(** Modelled from the spec: [Collection.add], missing with
    [@/utils/Collection]; the append of the point stream. *)
Definition Collection_add {A : Type} (x : A) (c : list A) : list A := c ++ [x].

(** Modelled from the spec: [Collection.unshift], missing with
    [@/utils/Collection]; the prepend of the point stream. *)
Definition Collection_unshift {A : Type} (x : A) (c : list A) : list A := x :: c.

(** Modelled from the spec: [Collection.clear], missing with
    [@/utils/Collection]; the clear of the point stream. *)
Definition Collection_clear {A : Type} (c : list A) : list A := [].

(** ** Coordinates *)

(** Modelled from the spec: [pointToCoordinates] of [Graphics], whose file
    is not part of the sources.  The spec has the camera hold a pixel-space
    [center] and a [scale] in pixels per unit, and gives the visible range
    as [[-center.x/scale, (canvasWidth-center.x)/scale]], the coordinates of
    the pixels [0] and [canvasWidth]: a pixel [p] has abscissa
    [(p.x - center.x)/scale].  The ordinate is mirrored (pixel rows grow
    downwards), which is why [handleWheel] subtracts [centerDy * scale]. *)
Definition pointToCoordinates (st : Render) (p : Point) : Point :=
  createPoint ((px p - px (center st)) / scale st)
              (- (py p - py (center st)) / scale st).

(** The range of abscissas the canvas shows, as every method computes it:
    [-center.x / unitPx] and [(canvas.width - center.x) / unitPx]. *)
Definition visibleBegin (st : Render) : Q := - px (center st) / scale st.

Definition visibleEnd (st : Render) : Q :=
  (canvas_width st - px (center st)) / scale st.

(** ** Sampling: [calculatePoints] *)

(** [for(let x = beginX; x <= endX; x += dx) postMessage(... "add")] *)
Fixpoint loop_add (fuel : nat) (func : Function) (endX dx x : Q) (st : Render)
  : outcome Render :=
  if Qle_bool x endX then
    match fuel with
    | O => Diverges
    | S fuel' =>
        loop_add fuel' func endX dx (x + dx) (postMessage (evaluate func x "add") st)
    end
  else Done st.

(** [for(let x = endX; x >= beginX; x -= dx) postMessage(... "unshift")] *)
Fixpoint loop_unshift (fuel : nat) (func : Function) (beginX dx x : Q) (st : Render)
  : outcome Render :=
  if Qle_bool beginX x then
    match fuel with
    | O => Diverges
    | S fuel' =>
        loop_unshift fuel' func beginX dx (x - dx)
                     (postMessage (evaluate func x "unshift") st)
    end
  else Done st.

Definition calculatePoints (fuel : nat) (func : Function) (beginX endX : Q)
  (direction : MovingDirection) (st : Render) : outcome Render :=
  let beginX :=
    if is_POLAR (mode func) && Qlt_bool beginX 0 then 0 else beginX in
  if is_POLAR (mode func) && Qlt_bool endX 0 then Done st
  else
    let dx := delta * spacing st in
    match direction with
    | LEFT => loop_add fuel func endX dx beginX st
    | RIGHT => loop_unshift fuel func beginX dx endX st
    end.

(** A loop over the function list, [body] run on each function in turn. *)
Fixpoint forEach (body : Function -> Render -> outcome Render)
  (l : list Function) (st : Render) : outcome Render :=
  match l with
  | [] => Done st
  | func :: l' => st' <- body func st ;; forEach body l' st'
  end.

(** ** Function image operations *)

Definition moveFunctionImage (fuel : nat) (direction : MovingDirection)
  (st : Render) : outcome Render :=
  match displayedPoints st with
  | [] => Done st
  | _ :: _ =>
      let oldBegin := fst (cameraPosition st) in
      let newBegin := visibleBegin st in
      let oldEnd := snd (cameraPosition st) in
      let newEnd := visibleEnd st in
      let '(beginX, endX) :=
        match direction with
        | LEFT => (oldEnd, newEnd)
        | RIGHT => (newBegin, oldBegin)
        end in
      st' <- forEach (fun func => calculatePoints fuel func beginX endX direction)
                     (functionList st) st ;;
      Done (set_cameraPosition (newBegin, newEnd) st')
  end.

Definition zoomFunctionImage (fuel : nat) (direction : ZoomDirection)
  (st : Render) : outcome Render :=
  match displayedPoints st with
  | [] => Done st
  | _ :: _ =>
      let oldBegin := fst (cameraPosition st) in
      let newBegin := visibleBegin st in
      let oldEnd := snd (cameraPosition st) in
      let newEnd := visibleEnd st in
      st' <-
        match direction with
        | ZOOM_IN =>
            forEach (fun func => calculatePoints fuel func newBegin newEnd LEFT)
                    (functionList st)
                    (set_displayedPoints (Collection_clear (displayedPoints st)) st)
        | ZOOM_OUT =>
            forEach (fun func st0 =>
                       st1 <- calculatePoints fuel func newBegin oldBegin RIGHT st0 ;;
                       calculatePoints fuel func oldEnd newEnd LEFT st1)
                    (functionList st) st
        end ;;
      Done (set_cameraPosition (newBegin, newEnd) st')
  end.

Definition stopMoving (st : Render) : Render :=
  set_mouseDY 0 (set_mouseDX 0 (set_mouseDown false st)).

Definition drawCompleteFunction (fuel : nat) (st : Render) : outcome Render :=
  match List_getLast (functionList st) with
  | None => TypeError
  | Some func => calculatePoints fuel func (visibleBegin st) (visibleEnd st) LEFT st
  end.

Definition fullyRefreshFunctions (fuel : nat) (st : Render) : outcome Render :=
  let st0 := set_displayedPoints (Collection_clear (displayedPoints st)) st in
  forEach (fun func => calculatePoints fuel func (visibleBegin st0) (visibleEnd st0) LEFT)
          (functionList st0) st0.

(** ** Messages of the calculation worker *)

Definition polarPoint (r theta : Q) : Point :=
  createPoint (r * Math_cos theta) (r * Math_sin theta).

Definition handleCalculatingWorkerMessaging (fuel : nat) (res : Response)
  (st : Render) : outcome Render :=
  if String.eqb (res_type res) "compile" then
    drawCompleteFunction fuel
      (set_functionList
         (List_add (newFunction (res_id res) (res_mode res)
                                (RootToken_create (res_root res)))
                   (functionList st)) st)
  else if String.eqb (res_type res) "compile-and-set" then
    match List_get (functionList st) (res_index res) with
    | None => TypeError
    | Some oldFunction =>
        fullyRefreshFunctions fuel
          (set_functionList
             (List_set (functionList st) (res_index res)
                       (newFunction (id oldFunction) (res_mode res)
                                    (RootToken_create (res_root res)))) st)
    end
  else if String.eqb (res_type res) "evaluate" then
    let p := if is_NORMAL (res_mode res)
             then createPoint (res_x res) (res_y res)
             else polarPoint (res_y res) (res_x res) in
    if String.eqb (res_operate res) "add" then
      Done (set_displayedPoints (Collection_add p (displayedPoints st)) st)
    else if String.eqb (res_operate res) "unshift" then
      Done (set_displayedPoints (Collection_unshift p (displayedPoints st)) st)
    else Done st
  else Done st.

(** ** Event handlers *)

Definition refreshMousePoint (rect : DOMRect) (cx cy : Q) (st : Render) : Render :=
  set_mousePoint (createPoint (cx - left rect) (cy - top rect)) st.

Definition handleMouseDown (rect : DOMRect) (cx cy : Q) (st : Render) : Render :=
  let st := set_mouseDown true st in
  let cx := cx * ratio st in
  let cy := cy * ratio st in
  let st := refreshMousePoint rect cx cy st in
  let st := set_mouseDX (px (mousePoint st) - px (center st)) st in
  set_mouseDY (py (mousePoint st) - py (center st)) st.

Definition handleMouseMove (fuel : nat) (rect : DOMRect) (cx cy : Q)
  (direction : MovingDirection) (st : Render) : outcome Render :=
  let cx := cx * ratio st in
  let cy := cy * ratio st in
  let st := refreshMousePoint rect cx cy st in
  if negb (mouseDown st) then Done st
  else
    let st := set_center (createPoint (px (mousePoint st) - mouseDX st)
                                      (py (center st))) st in
    let st := set_center (createPoint (px (center st))
                                      (py (mousePoint st) - mouseDY st)) st in
    moveFunctionImage fuel direction st.

Definition handleMouseUp (st : Render) : Render :=
  set_lastZoomingSize None (set_zoomingScale None (stopMoving st)).

Definition handleWheel (fuel : nat) (dy : Q) (st : Render) : outcome Render :=
  let delta := 7 in
  let mouseOriginPoint := pointToCoordinates st (mousePoint st) in
  let st := if Qlt_bool 0 dy
            then set_scale (scale st - delta / spacing st) st
            else set_scale (scale st + delta / spacing st) st in
  let st := scalingAdapt st in
  st <- zoomFunctionImage fuel (if Qlt_bool 0 dy then ZOOM_OUT else ZOOM_IN) st ;;
  let mouseCurrentPoint := pointToCoordinates st (mousePoint st) in
  let centerDx := px mouseCurrentPoint - px mouseOriginPoint in
  let centerDy := py mouseCurrentPoint - py mouseOriginPoint in
  let st := set_center (createPoint (px (center st) + centerDx * scale st)
                                    (py (center st))) st in
  let st := set_center (createPoint (px (center st))
                                    (py (center st) - centerDy * scale st)) st in
  Done st.

(** The truth value of a [number | null]: [null] and [0] are falsy. *)
Definition truthy (v : option Q) : bool :=
  match v with
  | None => false
  | Some q => negb (Qeq_bool q 0)
  end.

(** The distance between the two fingers: the three [const] lines of
    [handleTouchZoom]. *)
Definition pinchSize (rect : DOMRect) (cxA cyA cxB cyB : Q) : Q :=
  let screenA := createPoint (cxA - left rect) (cyA - top rect) in
  let screenB := createPoint (cxB - left rect) (cyB - top rect) in
  Math_sqrt ((px screenA - px screenB) ^ 2 + (py screenA - py screenB) ^ 2).

Definition handleTouchZoom (fuel : nat) (rect : DOMRect) (cxA cyA cxB cyB : Q)
  (st : Render) : outcome Render :=
  let cxA := cxA * ratio st in
  let cyA := cyA * ratio st in
  let cxB := cxB * ratio st in
  let cyB := cyB * ratio st in
  let zoomingSize := pinchSize rect cxA cyA cxB cyB in
  let st := if negb (truthy (lastZoomingSize st))
            then set_lastZoomingSize (Some zoomingSize) st else st in
  match zoomingScale st with
  | Some zs =>
      if truthy (Some zs) then
        let st := set_scale (zoomingSize / zs) st in
        let st := scalingAdapt st in
        let direction :=
          match lastZoomingSize st with
          | Some lz =>
              if truthy (Some lz) && Qlt_bool zoomingSize lz
              then ZOOM_OUT else ZOOM_IN
          | None => ZOOM_IN
          end in
        st <- zoomFunctionImage fuel direction st ;;
        Done (set_lastZoomingSize (Some zoomingSize) st)
      else Done (set_zoomingScale (Some (zoomingSize / scale st)) st)
  | None => Done (set_zoomingScale (Some (zoomingSize / scale st)) st)
  end.

(** ** The samples of a batch

    The abscissas the two loops of [calculatePoints] visit, as lists: the
    same loops without the renderer.  [fuel_for] is a number of turns that
    lets a loop over [[beginX, endX]] with a positive step [dx] finish. *)

Fixpoint range_add (fuel : nat) (endX dx x : Q) : list Q :=
  if Qle_bool x endX then
    match fuel with
    | O => []
    | S fuel' => x :: range_add fuel' endX dx (x + dx)
    end
  else [].

Fixpoint range_unshift (fuel : nat) (beginX dx x : Q) : list Q :=
  if Qle_bool beginX x then
    match fuel with
    | O => []
    | S fuel' => x :: range_unshift fuel' beginX dx (x - dx)
    end
  else [].

Definition fuel_for (beginX endX dx : Q) : nat :=
  Z.to_nat (Qfloor ((endX - beginX) / dx) + 1).

Definition samples_add (beginX endX dx : Q) : list Q :=
  range_add (fuel_for beginX endX dx) endX dx beginX.

Definition samples_unshift (beginX endX dx : Q) : list Q :=
  range_unshift (fuel_for beginX endX dx) beginX dx endX.

(** The messages one call [calculatePoints(func, beginX, endX, direction)]
    posts when the grid spacing is [sp]. *)
Definition requested (sp : Q) (func : Function) (beginX endX : Q)
  (direction : MovingDirection) : list Request :=
  let beginX :=
    if is_POLAR (mode func) && Qlt_bool beginX 0 then 0 else beginX in
  if is_POLAR (mode func) && Qlt_bool endX 0 then []
  else
    match direction with
    | LEFT =>
        map (fun x => evaluate func x "add") (samples_add beginX endX (delta * sp))
    | RIGHT =>
        map (fun x => evaluate func x "unshift")
            (samples_unshift beginX endX (delta * sp))
    end.

(** The [operate] field the loop of a direction writes. *)
Definition operate_of (direction : MovingDirection) : string :=
  match direction with
  | LEFT => "add"
  | RIGHT => "unshift"
  end.

(** The order of the abscissas in a batch: going up when appending, going
    down when prepending. *)
Definition batch_order (direction : MovingDirection) (r1 r2 : Request) : Prop :=
  match direction with
  | LEFT => req_x r1 < req_x r2
  | RIGHT => req_x r2 < req_x r1
  end.

(** [reqs] samples the slice [[beginX, endX]] for [func]: every message is
    an [evaluate] request for [func] with the [operate] of the direction and
    an abscissa in the slice; the abscissas are strictly ordered; and every
    abscissa of the slice (of its non-negative part, for a POLAR function)
    is less than one step [dx] past a sample. *)
Definition samples_slice (dx : Q) (func : Function) (beginX endX : Q)
  (direction : MovingDirection) (reqs : list Request) : Prop :=
  Forall (fun r =>
            req_type r = "evaluate"%string /\ req_id r = id func /\
            req_mode r = mode func /\ req_root r = root func /\
            req_operate r = operate_of direction /\
            beginX <= req_x r /\ req_x r <= endX) reqs /\
  StronglySorted (batch_order direction) reqs /\
  forall y : Q,
    beginX <= y -> y <= endX -> (mode func = POLAR -> 0 <= y) ->
    Exists (fun r =>
              match direction with
              | LEFT => req_x r <= y /\ y < req_x r + dx
              | RIGHT => req_x r - dx < y /\ y <= req_x r
              end) reqs.

(** Where the loops of [calculatePoints] start from below: [beginX], or 0
    for a POLAR function whose [beginX] is negative. *)
Definition batch_start (func : Function) (beginX : Q) : Q :=
  if is_POLAR (mode func) && Qlt_bool beginX 0 then 0 else beginX.

(** The run of the loop [for (x = beginX; x <= endX; x += dx)] from [x]:
    the abscissas it visits, the first one [x] itself, each of them at most
    [endX], each next one the one before plus [dx] as the loop adds it, and
    the one after the last past [endX]. *)
Fixpoint run_up (dx endX x : Q) (xs : list Q) : Prop :=
  match xs with
  | [] => endX < x
  | y :: ys => y = x /\ x <= endX /\ run_up dx endX (x + dx) ys
  end.

(** The run of the loop [for (x = endX; x >= beginX; x -= dx)] from [x]. *)
Fixpoint run_down (dx beginX x : Q) (xs : list Q) : Prop :=
  match xs with
  | [] => x < beginX
  | y :: ys => y = x /\ beginX <= x /\ run_down dx beginX (x - dx) ys
  end.

(** [reqs] is the batch of one call of [calculatePoints] for [func] over
    [[beginX, endX]]: it samples the slice, and its abscissas are the run of
    the loop of the direction, up from [batch_start func beginX] or down
    from [endX]. *)
Definition batch_over (dx : Q) (func : Function) (beginX endX : Q)
  (direction : MovingDirection) (reqs : list Request) : Prop :=
  samples_slice dx func beginX endX direction reqs /\
  match direction with
  | LEFT => run_up dx endX (batch_start func beginX) (map req_x reqs)
  | RIGHT => run_down dx (batch_start func beginX) endX (map req_x reqs)
  end.

(** Several messages posted in a row. *)
Definition postAll (msgs : list Request) (st : Render) : Render :=
  set_posted (posted st ++ msgs) st.

(** The slice a pan samples: [[oldEnd, newEnd]] moving left,
    [[newBegin, oldBegin]] moving right. *)
Definition pan_slice (direction : MovingDirection) (st : Render) : Q * Q :=
  match direction with
  | LEFT => (snd (cameraPosition st), visibleEnd st)
  | RIGHT => (visibleBegin st, fst (cameraPosition st))
  end.

(** The messages a pan posts when the point stream is not empty. *)
Definition pan_requests (direction : MovingDirection) (st : Render) : list Request :=
  flat_map (fun func =>
              requested (spacing st) func (fst (pan_slice direction st))
                        (snd (pan_slice direction st)) direction)
           (functionList st).

(** The messages a zoom posts when the point stream is not empty. *)
Definition zoom_requests (direction : ZoomDirection) (st : Render) : list Request :=
  match direction with
  | ZOOM_IN =>
      flat_map (fun func =>
                  requested (spacing st) func (visibleBegin st) (visibleEnd st) LEFT)
               (functionList st)
  | ZOOM_OUT =>
      flat_map (fun func =>
                  requested (spacing st) func (visibleBegin st)
                            (fst (cameraPosition st)) RIGHT ++
                  requested (spacing st) func (snd (cameraPosition st))
                            (visibleEnd st) LEFT)
               (functionList st)
  end.

(** The messages a full refresh posts. *)
Definition refresh_requests (st : Render) : list Request :=
  flat_map (fun func =>
              requested (spacing st) func (visibleBegin st) (visibleEnd st) LEFT)
           (functionList st).

(** [fuel] turns are enough for a loop over [[beginX, endX]] of step [dx]. *)
Definition enough (fuel : nat) (beginX endX dx : Q) : Prop :=
  endX - beginX < inject_Z (Z.of_nat fuel) * dx.

(** A property of the fuel that holds from some amount on. *)
Definition eventually (P : nat -> Prop) : Prop :=
  exists fuel0 : nat, forall fuel : nat, (fuel0 <= fuel)%nat -> P fuel.

(** A camera the quotients and the loops make sense for: a positive grid
    unit and a non-zero scale.  (In the model a quotient by zero is 0, in
    JavaScript it is an infinity or NaN: nothing is claimed there.) *)
Definition camera_ok (st : Render) : Prop :=
  0 < spacing st /\ ~ scale st == 0.

(** The camera invariant of the spec: the stored range is the visible one. *)
Definition camera_invariant (st : Render) : Prop :=
  fst (cameraPosition st) == visibleBegin st /\
  snd (cameraPosition st) == visibleEnd st.

(** ** Statements about the operations *)

(** A run ends, whatever fuel it is given from some amount on, in a renderer
    on which the camera invariant holds. *)
Definition refreshed_by (run : nat -> outcome Render) : Prop :=
  eventually (fun fuel => exists st', run fuel = Done st' /\ camera_invariant st').

(** A pan in [direction] ends, leaves the point stream as it is, and posts
    one batch for each function in turn and nothing else: the batch of the
    slice between the stored range and the range now shown, [[oldEnd,
    newEnd]] going up when moving left, [[newBegin, oldBegin]] going down
    when moving right, where [[oldBegin, oldEnd]] is [cameraPosition]. *)
Definition pan_samples_exposed_slice (direction : MovingDirection) (st : Render)
  : Prop :=
  eventually (fun fuel => exists (st' : Render) (batches : list (list Request)),
    moveFunctionImage fuel direction st = Done st' /\
    displayedPoints st' = displayedPoints st /\
    posted st' = posted st ++ List.concat batches /\
    Forall2 (fun func batch =>
               batch_over (delta * spacing st) func
                 (fst (pan_slice direction st)) (snd (pan_slice direction st))
                 direction batch)
            (functionList st) batches).

(** A zoom ends.  Zooming in, the point stream is emptied and one batch is
    posted for each function, over the range now shown; zooming out, the
    point stream is kept and two batches are posted for each function, one
    over [[newBegin, oldBegin]] going down and one over [[oldEnd, newEnd]]
    going up, where [[oldBegin, oldEnd]] is [cameraPosition].  Nothing else
    is posted. *)
Definition zoom_resamples (direction : ZoomDirection) (st : Render) : Prop :=
  eventually (fun fuel => exists st' : Render,
    zoomFunctionImage fuel direction st = Done st' /\
    match direction with
    | ZOOM_IN =>
        displayedPoints st' = [] /\
        exists batches : list (list Request),
          posted st' = posted st ++ List.concat batches /\
          Forall2 (fun func batch =>
                     batch_over (delta * spacing st) func
                       (visibleBegin st) (visibleEnd st) LEFT batch)
                  (functionList st) batches
    | ZOOM_OUT =>
        displayedPoints st' = displayedPoints st /\
        exists batches : list (list Request * list Request),
          posted st' =
            posted st ++ flat_map (fun pair => fst pair ++ snd pair) batches /\
          Forall2 (fun func pair =>
                     batch_over (delta * spacing st) func
                       (visibleBegin st) (fst (cameraPosition st)) RIGHT (fst pair) /\
                     batch_over (delta * spacing st) func
                       (snd (cameraPosition st)) (visibleEnd st) LEFT (snd pair))
                  (functionList st) batches
    end).


(** The wording of the spec for a [compile-and-set] response: the handler
    ends having asked, for every registered function, for samples that leave
    no gap of a step anywhere in the visible range. *)
Definition resamples_full_range (res : Response) (st : Render) : Prop :=
  eventually (fun fuel => exists (st' : Render) (reqs : list Request),
    handleCalculatingWorkerMessaging fuel res st = Done st' /\
    posted st' = posted st ++ reqs /\
    forall func : Function, In func (functionList st') ->
    forall y : Q, visibleBegin st <= y -> y <= visibleEnd st ->
      Exists (fun r => req_id r = id func /\
                       req_x r <= y /\ y < req_x r + delta * spacing st) reqs).

(** ** The other methods of [Render] *)

(** Modelled from the spec: [List.clear], missing with [@/utils/List]; the
    list holds nothing afterwards. *)
Definition List_clear {A : Type} (l : list A) : list A := [].

(** Modelled from the spec: [List.remove], missing with [@/utils/List]; the
    spec has a function "removed on unregister": the element at [index] is
    taken out and the others keep their order. *)
Fixpoint List_remove {A : Type} (l : list A) (index : nat) : list A :=
  match l, index with
  | [], _ => []
  | _ :: t, O => t
  | h :: t, S n => h :: List_remove t n
  end.

Definition unregisterFunction (fuel : nat) (index : nat) (st : Render)
  : outcome Render :=
  fullyRefreshFunctions fuel
    (set_functionList (List_remove (functionList st) index) st).

Definition unregisterAllFunctions (fuel : nat) (st : Render) : outcome Render :=
  fullyRefreshFunctions fuel
    (set_functionList (List_clear (functionList st)) st).

(** [reset]: the two containers are cleared (the timer it also stops is not
    part of the record). *)
Definition reset (st : Render) : Render :=
  set_displayedPoints (Collection_clear (displayedPoints st))
    (set_functionList (List_clear (functionList st)) st).

(** The constructor, after [super(...)]: the base class has set [ratio],
    [scale], [spacing] and [mousePoint] (they are arguments here); the
    centre is put in the middle of the canvas and the visible range stored;
    the other fields take their initial values. *)
Definition newRender (canvas_width canvas_height ratio scale spacing : Q)
  (mousePoint : Point) : Render :=
  let center := createPoint (canvas_width / 2) (canvas_height / 2) in
  {| canvas_width := canvas_width; ratio := ratio; center := center;
     scale := scale; spacing := spacing; mousePoint := mousePoint;
     mouseDown := false; mouseDX := 0; mouseDY := 0;
     cameraPosition := (- px center / scale, (canvas_width - px center) / scale);
     zoomingScale := None; lastZoomingSize := None;
     functionList := []; displayedPoints := []; posted := [] |}.

(** The messages of the calculation worker, handled one after the other in
    the order of their arrival. *)
Fixpoint handleMessages (fuel : nat) (rs : list Response) (st : Render)
  : outcome Render :=
  match rs with
  | [] => Done st
  | res :: rs' =>
      st' <- handleCalculatingWorkerMessaging fuel res st ;;
      handleMessages fuel rs' st'
  end.

(** The point an [evaluate] response stands for. *)
Definition samplePoint (res : Response) : Point :=
  if is_NORMAL (res_mode res)
  then createPoint (res_x res) (res_y res)
  else polarPoint (res_y res) (res_x res).

(** [st'] is [st] after some sampling: messages posted, the point stream
    possibly replaced, the stored range possibly rewritten; nothing else. *)
Definition only_resamples (st st' : Render) : Prop :=
  exists (reqs : list Request) (points : list Point) (range : Q * Q),
    st' = set_cameraPosition range
            (postAll reqs (set_displayedPoints points st)).

(** ** What the operations leave, fuel aside

    The renderer a pan, a zoom, a wheel step and a pinch frame end with when
    their loops are given the fuel to finish: the same methods with each
    loop replaced by the messages it posts. *)

Definition moved (direction : MovingDirection) (st : Render) : Render :=
  match displayedPoints st with
  | [] => st
  | _ :: _ =>
      set_cameraPosition (visibleBegin st, visibleEnd st)
                         (postAll (pan_requests direction st) st)
  end.

Definition zoomed (direction : ZoomDirection) (st : Render) : Render :=
  match displayedPoints st with
  | [] => st
  | _ :: _ =>
      set_cameraPosition (visibleBegin st, visibleEnd st)
        (postAll (zoom_requests direction st)
           match direction with
           | ZOOM_IN => set_displayedPoints [] st
           | ZOOM_OUT => st
           end)
  end.

Definition wheeled (dy : Q) (st : Render) : Render :=
  let mouseOriginPoint := pointToCoordinates st (mousePoint st) in
  let st := if Qlt_bool 0 dy
            then set_scale (scale st - 7 / spacing st) st
            else set_scale (scale st + 7 / spacing st) st in
  let st := scalingAdapt st in
  let st := zoomed (if Qlt_bool 0 dy then ZOOM_OUT else ZOOM_IN) st in
  let mouseCurrentPoint := pointToCoordinates st (mousePoint st) in
  let centerDx := px mouseCurrentPoint - px mouseOriginPoint in
  let centerDy := py mouseCurrentPoint - py mouseOriginPoint in
  let st := set_center (createPoint (px (center st) + centerDx * scale st)
                                    (py (center st))) st in
  set_center (createPoint (px (center st))
                          (py (center st) - centerDy * scale st)) st.

(** The renderer a drag step pans: the cursor recorded and the centre put
    where the cursor is, less the offset taken at mouse down (the lines of
    [handleMouseMove] before its call of [moveFunctionImage]). *)
Definition dragged (rect : DOMRect) (cx cy : Q) (st : Render) : Render :=
  let cx := cx * ratio st in
  let cy := cy * ratio st in
  let st := refreshMousePoint rect cx cy st in
  let st := set_center (createPoint (px (mousePoint st) - mouseDX st)
                                    (py (center st))) st in
  set_center (createPoint (px (center st))
                          (py (mousePoint st) - mouseDY st)) st.

(** The responses a stream appends, and those it prepends. *)
Definition is_add (res : Response) : bool := String.eqb (res_operate res) "add".

Definition is_unshift (res : Response) : bool :=
  String.eqb (res_operate res) "unshift".

End Renderer.

(** * A host and renderers for the examples *)

(** The square root of a rational whose numerator and denominator are both
    squares. *)
Definition exact_sqrt (q : Q) : Q := Z.sqrt (Qnum q) # Pos.sqrt (Qden q).

(** Token trees are trivial.  No example receives a POLAR sample, so
    [Math.cos] and [Math.sin] only have their values at [0]. *)
Definition exampleHost : Host :=
  {| RawRoot := unit; RootToken := unit; RootToken_create := fun r => r;
     Math_cos := fun _ => 1; Math_sin := fun _ => 0; Math_sqrt := exact_sqrt |}.

Definition parabola : @Function exampleHost := @newFunction exampleHost 0 NORMAL tt.

Definition spiral : @Function exampleHost := @newFunction exampleHost 1 POLAR tt.

Definition origin_rect : DOMRect := {| left := 0; top := 0 |}.

(** A canvas of width 100 centred on the origin, one pixel per unit, a grid
    unit of 100 (samples one unit apart); [parabola] is registered and no
    sample has come back yet. *)
Definition waiting : @Render exampleHost :=
  {| canvas_width := 100; ratio := 1; center := createPoint 50 50;
     scale := 1; spacing := 100; mousePoint := createPoint 50 50;
     mouseDown := false; mouseDX := 0; mouseDY := 0;
     cameraPosition := (-50, 50);
     zoomingScale := None; lastZoomingSize := None;
     functionList := [parabola]; displayedPoints := []; posted := [] |}.

(** The same with one point in the stream. *)
Definition plotted : @Render exampleHost :=
  set_displayedPoints [createPoint 0 0] waiting.

(** The mouse button pressed at the centre of the canvas. *)
Definition waiting_pressed : @Render exampleHost :=
  handleMouseDown origin_rect 50 50 waiting.

Definition plotted_pressed : @Render exampleHost :=
  handleMouseDown origin_rect 50 50 plotted.

(** The centre dragged ten pixels to the left, the stored range not yet
    refreshed: the slice [[50, 60]] is exposed. *)
Definition waiting_dragged : @Render exampleHost :=
  set_center (createPoint 40 50) waiting.

Definition plotted_dragged : @Render exampleHost :=
  set_center (createPoint 40 50) plotted.

(** A renderer at the boundary of the grid adaptation: 33 pixels per unit
    and a grid unit of 2, the product being exactly 66. *)
Definition at_boundary : @Render exampleHost :=
  set_spacing 2 (set_scale 33 waiting).

(** One wheel step before the boundary. *)
Definition before_boundary : @Render exampleHost :=
  set_spacing 2 (set_scale (73 # 2) waiting).

(** A zoomed view with the cursor right of the centre. *)
Definition pointing : @Render exampleHost :=
  set_mousePoint (createPoint 75 50) (set_spacing 7 plotted).

(** A second finger down after a first pinch frame of size 1. *)
Definition pinching : @Render exampleHost :=
  set_lastZoomingSize (Some 1) (set_zoomingScale (Some 1) plotted).

(** The worker answers an edit of position 0 with a POLAR function. *)
Definition edit_response : @Response exampleHost :=
  {| res_type := "compile-and-set"; res_id := 0; res_index := 0;
     res_mode := POLAR; res_root := (tt : @RawRoot exampleHost); res_x := 0; res_y := 0;
     res_operate := "" |}.

(** A message of a type the handler does not know. *)
Definition fps_response : @Response exampleHost :=
  {| res_type := "fps"; res_id := 0; res_index := 0;
     res_mode := NORMAL; res_root := (tt : @RawRoot exampleHost); res_x := 0; res_y := 0;
     res_operate := "" |}.

(** A renderer whose grid unit is 0. *)
Definition gridless : @Render exampleHost := set_spacing 0 waiting.


(** [plotted] with a second function, a POLAR one. *)
Definition two_plotted : @Render exampleHost :=
  set_functionList [parabola; spiral] plotted.

(** The response to a request for a NORMAL sample. *)
Definition sample (x y : Q) (operate : string) : @Response exampleHost :=
  {| res_type := "evaluate"; res_id := 0; res_index := 0;
     res_mode := NORMAL; res_root := (tt : @RawRoot exampleHost);
     res_x := x; res_y := y; res_operate := operate |}.

(** The response to a request for a POLAR sample: radius 3 at angle 0. *)
Definition polar_sample : @Response exampleHost :=
  {| res_type := "evaluate"; res_id := 1; res_index := 0;
     res_mode := POLAR; res_root := (tt : @RawRoot exampleHost);
     res_x := 0; res_y := 3; res_operate := "add" |}.

(** The worker has compiled a second function. *)
Definition compile_response : @Response exampleHost :=
  {| res_type := "compile"; res_id := 7; res_index := 0;
     res_mode := NORMAL; res_root := (tt : @RawRoot exampleHost);
     res_x := 0; res_y := 0; res_operate := "" |}.

(** The answer to an edit of a position the list does not hold. *)
Definition stray_edit_response : @Response exampleHost :=
  {| res_type := "compile-and-set"; res_id := 0; res_index := 5;
     res_mode := NORMAL; res_root := (tt : @RawRoot exampleHost);
     res_x := 0; res_y := 0; res_operate := "" |}.

(** * Properties *)

Section Properties.

Context {host : Host}.

(** ** Arithmetic and fuel *)

Lemma Qlt_bool_iff (x y : Q) : Qlt_bool x y = true <-> x < y.
Proof.
  unfold Qlt_bool. rewrite negb_true_iff. split; intros H.
  - apply Qnot_le_lt. intros Hle. apply Qle_bool_iff in Hle. congruence.
  - destruct (Qle_bool y x) eqn:E; [|reflexivity].
    apply Qle_bool_iff in E. lra.
Qed.

Lemma Qle_bool_false (x y : Q) : Qle_bool x y = false <-> y < x.
Proof.
  rewrite <- Qlt_bool_iff. unfold Qlt_bool. rewrite negb_true_iff. tauto.
Qed.

Lemma inject_Z_S (n : nat) :
  inject_Z (Z.of_nat (S n)) == inject_Z (Z.of_nat n) + 1.
Proof. rewrite Nat2Z.inj_succ. unfold Z.succ. rewrite inject_Z_plus. reflexivity. Qed.

Lemma enough_mono (fuel fuel' : nat) (b e dx : Q) :
  0 < dx -> (fuel <= fuel')%nat -> enough fuel b e dx -> enough fuel' b e dx.
Proof.
  unfold enough. intros Hdx Hle H.
  assert (Hq : inject_Z (Z.of_nat fuel) <= inject_Z (Z.of_nat fuel')).
  { rewrite <- Zle_Qle. lia. }
  nra.
Qed.

Lemma enough_fuel_for (b e dx : Q) : 0 < dx -> enough (fuel_for b e dx) b e dx.
Proof.
  intros Hdx. unfold enough, fuel_for.
  pose proof (Qlt_floor ((e - b) / dx)) as Hfl.
  set (z := (Qfloor ((e - b) / dx) + 1)%Z) in *.
  assert (Hz : inject_Z z <= inject_Z (Z.of_nat (Z.to_nat z))).
  { rewrite <- Zle_Qle. lia. }
  assert (Heq : e - b == (e - b) / dx * dx) by (field; lra).
  rewrite Heq.
  apply Qlt_le_trans with (inject_Z z * dx).
  - apply Qmult_lt_compat_r; assumption.
  - apply Qmult_le_compat_r; lra.
Qed.

Lemma enough_shrink (fuel : nat) (b b' e e' dx : Q) :
  b <= b' -> e' <= e -> enough fuel b e dx -> enough fuel b' e' dx.
Proof. unfold enough. intros. lra. Qed.

Lemma eventually_enough (b e dx : Q) :
  0 < dx -> eventually (fun fuel => enough fuel b e dx).
Proof.
  intros Hdx. exists (fuel_for b e dx). intros fuel Hle.
  apply enough_mono with (fuel_for b e dx); auto using enough_fuel_for.
Qed.

Lemma eventually_and (P R : nat -> Prop) :
  eventually P -> eventually R -> eventually (fun fuel => P fuel /\ R fuel).
Proof.
  intros [n Hn] [m Hm]. exists (Nat.max n m). intros fuel Hle.
  split; [apply Hn | apply Hm]; lia.
Qed.

Lemma eventually_impl (P R : nat -> Prop) :
  (forall fuel, P fuel -> R fuel) -> eventually P -> eventually R.
Proof. intros HPR [n Hn]. exists n. auto. Qed.

(** ** Posting *)

Lemma postAll_nil (st : Render) : postAll [] st = st.
Proof. destruct st. unfold postAll, set_posted. simpl. now rewrite app_nil_r. Qed.

Lemma postAll_cons (m : Request) (ms : list Request) (st : Render) :
  postAll ms (postMessage m st) = postAll (m :: ms) st.
Proof.
  unfold postAll, postMessage, set_posted. simpl.
  now rewrite <- app_assoc.
Qed.

Lemma postAll_app (a b : list Request) (st : Render) :
  postAll b (postAll a st) = postAll (a ++ b) st.
Proof.
  unfold postAll, set_posted. simpl. now rewrite app_assoc.
Qed.

(** ** The loops of [calculatePoints] *)

Lemma enough_step_add (fuel : nat) (x e dx : Q) :
  enough (S fuel) x e dx -> enough fuel (x + dx) e dx.
Proof. unfold enough. rewrite inject_Z_S. intros H. lra. Qed.

Lemma enough_step_unshift (fuel : nat) (b x dx : Q) :
  enough (S fuel) b x dx -> enough fuel b (x - dx) dx.
Proof. unfold enough. rewrite inject_Z_S. intros H. lra. Qed.

Lemma enough_O (b e dx : Q) : enough 0 b e dx -> Qle_bool b e = false.
Proof.
  unfold enough. change (inject_Z (Z.of_nat 0)) with 0.
  intros H. apply Qle_bool_false. lra.
Qed.

Lemma loop_add_enough (fuel : nat) (func : Function) (e dx x : Q) (st : Render) :
  enough fuel x e dx ->
  loop_add fuel func e dx x st =
  Done (postAll (map (fun x => evaluate func x "add") (range_add fuel e dx x)) st).
Proof.
  revert x st. induction fuel as [|fuel IH]; intros x st Hen; simpl.
  - rewrite (enough_O _ _ _ Hen). now rewrite postAll_nil.
  - destruct (Qle_bool x e).
    + rewrite IH by now apply enough_step_add.
      simpl. now rewrite postAll_cons.
    + now rewrite postAll_nil.
Qed.

Lemma loop_unshift_enough (fuel : nat) (func : Function) (b dx x : Q) (st : Render) :
  enough fuel b x dx ->
  loop_unshift fuel func b dx x st =
  Done (postAll (map (fun x => evaluate func x "unshift")
                     (range_unshift fuel b dx x)) st).
Proof.
  revert x st. induction fuel as [|fuel IH]; intros x st Hen; simpl.
  - rewrite (enough_O _ _ _ Hen). now rewrite postAll_nil.
  - destruct (Qle_bool b x).
    + rewrite IH by now apply enough_step_unshift.
      simpl. now rewrite postAll_cons.
    + now rewrite postAll_nil.
Qed.

Lemma range_add_fuel (fuel fuel' : nat) (e dx x : Q) :
  enough fuel x e dx -> enough fuel' x e dx ->
  range_add fuel e dx x = range_add fuel' e dx x.
Proof.
  revert fuel' x. induction fuel as [|fuel IH]; intros [|fuel'] x H H'; simpl;
    try reflexivity.
  - now rewrite (enough_O _ _ _ H).
  - now rewrite (enough_O _ _ _ H').
  - destruct (Qle_bool x e); [|reflexivity].
    f_equal. apply IH; now apply enough_step_add.
Qed.

Lemma range_unshift_fuel (fuel fuel' : nat) (b dx x : Q) :
  enough fuel b x dx -> enough fuel' b x dx ->
  range_unshift fuel b dx x = range_unshift fuel' b dx x.
Proof.
  revert fuel' x. induction fuel as [|fuel IH]; intros [|fuel'] x H H'; simpl;
    try reflexivity.
  - now rewrite (enough_O _ _ _ H).
  - now rewrite (enough_O _ _ _ H').
  - destruct (Qle_bool b x); [|reflexivity].
    f_equal. apply IH; now apply enough_step_unshift.
Qed.

(** Every sample lies in the range, whatever the fuel. *)
Lemma range_add_bounds (fuel : nat) (e dx x : Q) :
  0 <= dx -> Forall (fun y => x <= y /\ y <= e) (range_add fuel e dx x).
Proof.
  intros Hdx. revert x. induction fuel as [|fuel IH]; intros x; simpl.
  - destruct (Qle_bool x e); constructor.
  - destruct (Qle_bool x e) eqn:E; constructor.
    + apply Qle_bool_iff in E. lra.
    + eapply Forall_impl; [|apply IH]. simpl. intros y Hy. lra.
Qed.

Lemma range_unshift_bounds (fuel : nat) (b dx x : Q) :
  0 <= dx -> Forall (fun y => b <= y /\ y <= x) (range_unshift fuel b dx x).
Proof.
  intros Hdx. revert x. induction fuel as [|fuel IH]; intros x; simpl.
  - destruct (Qle_bool b x); constructor.
  - destruct (Qle_bool b x) eqn:E; constructor.
    + apply Qle_bool_iff in E. lra.
    + eapply Forall_impl; [|apply IH]. simpl. intros y Hy. lra.
Qed.

(** The samples go up (down) strictly. *)
Lemma range_add_sorted (fuel : nat) (e dx x : Q) :
  0 < dx -> StronglySorted Qlt (range_add fuel e dx x).
Proof.
  intros Hdx. revert x. induction fuel as [|fuel IH]; intros x; simpl.
  - destruct (Qle_bool x e); constructor.
  - destruct (Qle_bool x e); constructor.
    + apply IH.
    + eapply Forall_impl; [|apply (range_add_bounds fuel e dx (x + dx)); lra].
      simpl. intros y Hy. lra.
Qed.

Lemma range_unshift_sorted (fuel : nat) (b dx x : Q) :
  0 < dx -> StronglySorted (fun y z => z < y) (range_unshift fuel b dx x).
Proof.
  intros Hdx. revert x. induction fuel as [|fuel IH]; intros x; simpl.
  - destruct (Qle_bool b x); constructor.
  - destruct (Qle_bool b x); constructor.
    + apply IH.
    + eapply Forall_impl; [|apply (range_unshift_bounds fuel b dx (x - dx)); lra].
      simpl. intros y Hy. lra.
Qed.

(** With enough fuel the samples leave no gap of [dx] or more in the range. *)
Lemma range_add_cover (fuel : nat) (e dx x y : Q) :
  enough fuel x e dx -> x <= y -> y <= e ->
  Exists (fun s => s <= y /\ y < s + dx) (range_add fuel e dx x).
Proof.
  revert x. induction fuel as [|fuel IH]; intros x Hen Hxy Hye.
  - apply enough_O, Qle_bool_false in Hen. lra.
  - simpl. destruct (Qle_bool x e) eqn:E.
    + destruct (Qlt_le_dec y (x + dx)) as [Hlt|Hge].
      * apply Exists_cons_hd. split; assumption.
      * apply Exists_cons_tl. apply IH; auto using enough_step_add.
    + apply Qle_bool_false in E. lra.
Qed.

Lemma range_unshift_cover (fuel : nat) (b dx x y : Q) :
  enough fuel b x dx -> b <= y -> y <= x ->
  Exists (fun s => s - dx < y /\ y <= s) (range_unshift fuel b dx x).
Proof.
  revert x. induction fuel as [|fuel IH]; intros x Hen Hby Hyx.
  - apply enough_O, Qle_bool_false in Hen. lra.
  - simpl. destruct (Qle_bool b x) eqn:E.
    + destruct (Qlt_le_dec (x - dx) y) as [Hlt|Hge].
      * apply Exists_cons_hd. split; assumption.
      * apply Exists_cons_tl. apply IH; auto using enough_step_unshift.
    + apply Qle_bool_false in E. lra.
Qed.

(** Without a positive step a loop over a non-empty range never ends. *)
Lemma loop_add_stuck (fuel : nat) (func : Function) (e dx x : Q) (st : Render) :
  dx <= 0 -> x <= e -> loop_add fuel func e dx x st = Diverges.
Proof.
  intros Hdx. revert x st. induction fuel as [|fuel IH]; intros x st Hxe; simpl;
    apply Qle_bool_iff in Hxe as Hb; rewrite Hb; [reflexivity|].
  apply IH. lra.
Qed.

Lemma loop_unshift_stuck (fuel : nat) (func : Function) (b dx x : Q) (st : Render) :
  dx <= 0 -> b <= x -> loop_unshift fuel func b dx x st = Diverges.
Proof.
  intros Hdx. revert x st. induction fuel as [|fuel IH]; intros x st Hbx; simpl;
    apply Qle_bool_iff in Hbx as Hb; rewrite Hb; [reflexivity|].
  apply IH. lra.
Qed.

(** ** What [calculatePoints] posts *)

Lemma StronglySorted_map {A B : Type} (f : A -> B) (R : B -> B -> Prop) (l : list A) :
  StronglySorted (fun a b => R (f a) (f b)) l -> StronglySorted R (map f l).
Proof.
  induction 1 as [|a l Hl IH Ha]; simpl; constructor; auto.
  apply Forall_map. exact Ha.
Qed.

Lemma delta_pos (sp : Q) : 0 < sp -> 0 < delta * sp.
Proof. unfold delta. intros H. lra. Qed.

Lemma calculatePoints_enough (fuel : nat) (func : Function) (b e : Q)
  (direction : MovingDirection) (st : Render) :
  0 < spacing st -> enough fuel b e (delta * spacing st) ->
  calculatePoints fuel func b e direction st =
  Done (postAll (requested (spacing st) func b e direction) st).
Proof.
  intros Hsp Hen. pose proof (delta_pos _ Hsp) as Hdx.
  unfold calculatePoints, requested.
  set (b' := if is_POLAR (mode func) && Qlt_bool b 0 then 0 else b).
  assert (Hb : b <= b').
  { subst b'. destruct (is_POLAR (mode func) && Qlt_bool b 0) eqn:E; [|lra].
    apply andb_true_iff in E. destruct E as [_ E]. apply Qlt_bool_iff in E. lra. }
  assert (Hen' : enough fuel b' e (delta * spacing st)).
  { apply enough_shrink with b e; auto; lra. }
  destruct (is_POLAR (mode func) && Qlt_bool e 0).
  - now rewrite postAll_nil.
  - destruct direction.
    + rewrite loop_add_enough by assumption. unfold samples_add.
      rewrite (range_add_fuel fuel (fuel_for b' e (delta * spacing st)));
        auto using enough_fuel_for.
    + rewrite loop_unshift_enough by assumption. unfold samples_unshift.
      rewrite (range_unshift_fuel fuel (fuel_for b' e (delta * spacing st)));
        auto using enough_fuel_for.
Qed.

Lemma requested_samples_slice (sp : Q) (func : Function) (b e : Q)
  (direction : MovingDirection) :
  0 < sp ->
  samples_slice (delta * sp) func b e direction (requested sp func b e direction).
Proof.
  intros Hsp. pose proof (delta_pos _ Hsp) as Hdx.
  unfold samples_slice, requested.
  set (b' := if is_POLAR (mode func) && Qlt_bool b 0 then 0 else b).
  assert (Hb : b <= b').
  { subst b'. destruct (is_POLAR (mode func) && Qlt_bool b 0) eqn:E; [|lra].
    apply andb_true_iff in E. destruct E as [_ E]. apply Qlt_bool_iff in E. lra. }
  assert (Hb' : forall y, b <= y -> (mode func = POLAR -> 0 <= y) -> b' <= y).
  { intros y Hy Hpol. subst b'.
    destruct (is_POLAR (mode func) && Qlt_bool b 0) eqn:E; [|assumption].
    apply andb_true_iff in E. destruct E as [E _].
    apply Hpol. destruct (mode func); [discriminate|reflexivity]. }
  destruct (is_POLAR (mode func) && Qlt_bool e 0) eqn:Ee.
  - repeat split; try constructor.
    intros y Hy1 Hy2 Hpol. exfalso.
    apply andb_true_iff in Ee. destruct Ee as [Em Ee].
    apply Qlt_bool_iff in Ee.
    assert (0 <= y) by (apply Hpol; destruct (mode func); [discriminate|reflexivity]).
    lra.
  - destruct direction; (split; [|split]).
    + apply Forall_map.
      eapply Forall_impl; [|apply (range_add_bounds _ e (delta * sp) b'); lra].
      simpl. intros y [Hy1 Hy2]. repeat split; auto; lra.
    + apply StronglySorted_map. simpl. now apply range_add_sorted.
    + intros y Hy1 Hy2 Hpol. apply Exists_map.
      apply range_add_cover; auto using enough_fuel_for.
    + apply Forall_map.
      eapply Forall_impl; [|apply (range_unshift_bounds _ b' (delta * sp) e); lra].
      simpl. intros y [Hy1 Hy2]. repeat split; auto; lra.
    + apply StronglySorted_map. simpl. now apply range_unshift_sorted.
    + intros y Hy1 Hy2 Hpol. apply Exists_map.
      apply range_unshift_cover; auto using enough_fuel_for.
Qed.

(** ** The run of a batch *)

Lemma batch_start_bounds (func : Function) (b : Q) :
  b <= batch_start func b /\ (mode func = POLAR -> 0 <= batch_start func b).
Proof.
  unfold batch_start. destruct (mode func); simpl.
  - split; [lra|discriminate].
  - destruct (Qlt_bool b 0) eqn:E.
    + apply Qlt_bool_iff in E. split; intros; lra.
    + split; [lra|]. intros _.
      unfold Qlt_bool in E. apply negb_false_iff, Qle_bool_iff in E. exact E.
Qed.

Lemma range_add_run (fuel : nat) (e dx x : Q) :
  enough fuel x e dx -> run_up dx e x (range_add fuel e dx x).
Proof.
  revert x. induction fuel as [|fuel IH]; intros x Hen.
  - apply enough_O in Hen. cbn [range_add]. rewrite Hen. now apply Qle_bool_false.
  - cbn [range_add]. destruct (Qle_bool x e) eqn:E; cbn [run_up].
    + split; [reflexivity|]. split; [now apply Qle_bool_iff|].
      apply IH. now apply enough_step_add.
    + now apply Qle_bool_false.
Qed.

Lemma range_unshift_run (fuel : nat) (b dx x : Q) :
  enough fuel b x dx -> run_down dx b x (range_unshift fuel b dx x).
Proof.
  revert x. induction fuel as [|fuel IH]; intros x Hen.
  - apply enough_O in Hen. cbn [range_unshift]. rewrite Hen. now apply Qle_bool_false.
  - cbn [range_unshift]. destruct (Qle_bool b x) eqn:E; cbn [run_down].
    + split; [reflexivity|]. split; [now apply Qle_bool_iff|].
      apply IH. now apply enough_step_unshift.
    + now apply Qle_bool_false.
Qed.

Lemma map_req_x_evaluate (func : Function) (operate : string) (xs : list Q) :
  map req_x (map (fun x => evaluate func x operate) xs) = xs.
Proof. rewrite map_map. cbn [req_x evaluate]. apply map_id. Qed.

Lemma requested_batch_over (sp : Q) (func : Function) (b e : Q)
  (direction : MovingDirection) :
  0 < sp ->
  batch_over (delta * sp) func b e direction (requested sp func b e direction).
Proof.
  intros Hsp. split; [now apply requested_samples_slice|].
  pose proof (delta_pos _ Hsp) as Hdx.
  destruct (batch_start_bounds func b) as [Hb Hpol].
  unfold requested. change (if is_POLAR (mode func) && Qlt_bool b 0 then 0 else b)
    with (batch_start func b).
  destruct (is_POLAR (mode func) && Qlt_bool e 0) eqn:Ee.
  - apply andb_true_iff in Ee. destruct Ee as [Em Ee]. apply Qlt_bool_iff in Ee.
    assert (H0 : 0 <= batch_start func b)
      by (apply Hpol; destruct (mode func); [discriminate|reflexivity]).
    destruct direction; cbn [map run_up run_down]; lra.
  - destruct direction; rewrite map_req_x_evaluate.
    + apply range_add_run. now apply enough_fuel_for.
    + apply range_unshift_run. now apply enough_fuel_for.
Qed.

Lemma Forall2_map_r {A B : Type} (P : A -> B -> Prop) (f : A -> B) (l : list A) :
  (forall a, P a (f a)) -> Forall2 P l (map f l).
Proof. intros H. induction l; simpl; constructor; auto. Qed.

Lemma flat_map_pairs {A B : Type} (f g : A -> list B) (l : list A) :
  flat_map (fun pair => fst pair ++ snd pair) (map (fun a => (f a, g a)) l) =
  flat_map (fun a => f a ++ g a) l.
Proof. induction l as [|a l IH]; simpl; [reflexivity|]. now rewrite IH. Qed.

(** ** Loops over the function list *)

Lemma forEach_calculate (fuel : nat) (b e : Q) (direction : MovingDirection)
  (l : list Function) (st : Render) :
  0 < spacing st -> enough fuel b e (delta * spacing st) ->
  forEach (fun func => calculatePoints fuel func b e direction) l st =
  Done (postAll (flat_map (fun func => requested (spacing st) func b e direction) l) st).
Proof.
  intros Hsp Hen. revert st Hsp Hen.
  induction l as [|func l IH]; intros st Hsp Hen; simpl.
  - now rewrite postAll_nil.
  - rewrite calculatePoints_enough by assumption. simpl.
    rewrite IH by assumption. simpl. now rewrite postAll_app.
Qed.

Lemma forEach_calculate_edges (fuel : nat) (b1 e1 b2 e2 : Q)
  (l : list Function) (st : Render) :
  0 < spacing st ->
  enough fuel b1 e1 (delta * spacing st) ->
  enough fuel b2 e2 (delta * spacing st) ->
  forEach (fun func st0 =>
             st1 <- calculatePoints fuel func b1 e1 RIGHT st0 ;;
             calculatePoints fuel func b2 e2 LEFT st1) l st =
  Done (postAll (flat_map (fun func =>
                             requested (spacing st) func b1 e1 RIGHT ++
                             requested (spacing st) func b2 e2 LEFT) l) st).
Proof.
  intros Hsp Hen1 Hen2. revert st Hsp Hen1 Hen2.
  induction l as [|func l IH]; intros st Hsp Hen1 Hen2; simpl.
  - now rewrite postAll_nil.
  - rewrite calculatePoints_enough by assumption. cbn [bind].
    rewrite calculatePoints_enough by assumption. cbn [bind].
    rewrite IH by assumption. cbn [spacing postAll set_posted].
    now rewrite !postAll_app, app_assoc.
Qed.

(** ** Pan, zoom and refresh, with enough fuel *)

Lemma moveFunctionImage_empty (fuel : nat) (direction : MovingDirection) (st : Render) :
  displayedPoints st = [] -> moveFunctionImage fuel direction st = Done st.
Proof. unfold moveFunctionImage. intros ->. reflexivity. Qed.

Lemma zoomFunctionImage_empty (fuel : nat) (direction : ZoomDirection) (st : Render) :
  displayedPoints st = [] -> zoomFunctionImage fuel direction st = Done st.
Proof. unfold zoomFunctionImage. intros ->. reflexivity. Qed.

Lemma moveFunctionImage_eventually (direction : MovingDirection) (st : Render) :
  displayedPoints st <> [] -> 0 < spacing st ->
  eventually (fun fuel =>
    moveFunctionImage fuel direction st =
    Done (set_cameraPosition (visibleBegin st, visibleEnd st)
                             (postAll (pan_requests direction st) st))).
Proof.
  intros Hne Hsp.
  apply eventually_impl with
    (fun fuel => enough fuel (fst (pan_slice direction st))
                        (snd (pan_slice direction st)) (delta * spacing st)).
  - intros fuel Hen. unfold moveFunctionImage, pan_requests.
    destruct (displayedPoints st) as [|p ps]; [congruence|].
    destruct direction; cbn [pan_slice fst snd] in *;
      rewrite forEach_calculate by assumption; reflexivity.
  - apply eventually_enough. now apply delta_pos.
Qed.

Lemma zoomFunctionImage_eventually (direction : ZoomDirection) (st : Render) :
  displayedPoints st <> [] -> 0 < spacing st ->
  eventually (fun fuel =>
    zoomFunctionImage fuel direction st =
    Done (set_cameraPosition (visibleBegin st, visibleEnd st)
            (postAll (zoom_requests direction st)
               match direction with
               | ZOOM_IN => set_displayedPoints [] st
               | ZOOM_OUT => st
               end))).
Proof.
  intros Hne Hsp. pose proof (delta_pos _ Hsp) as Hdx.
  apply eventually_impl with
    (fun fuel =>
       enough fuel (visibleBegin st) (visibleEnd st) (delta * spacing st) /\
       enough fuel (visibleBegin st) (fst (cameraPosition st)) (delta * spacing st) /\
       enough fuel (snd (cameraPosition st)) (visibleEnd st) (delta * spacing st)).
  - intros fuel (Hin & Hl & Hr). unfold zoomFunctionImage, zoom_requests.
    destruct (displayedPoints st) as [|p ps]; [congruence|].
    destruct direction.
    + rewrite forEach_calculate by assumption. reflexivity.
    + rewrite forEach_calculate_edges by assumption. reflexivity.
  - repeat apply eventually_and; now apply eventually_enough.
Qed.

Lemma fullyRefreshFunctions_eventually (st : Render) :
  0 < spacing st ->
  eventually (fun fuel =>
    fullyRefreshFunctions fuel st =
    Done (postAll (refresh_requests st) (set_displayedPoints [] st))).
Proof.
  intros Hsp.
  apply eventually_impl with
    (fun fuel => enough fuel (visibleBegin st) (visibleEnd st) (delta * spacing st)).
  - intros fuel Hen. unfold fullyRefreshFunctions, refresh_requests.
    rewrite forEach_calculate by assumption. reflexivity.
  - apply eventually_enough. now apply delta_pos.
Qed.

(** The grid spacing stays positive. *)
Lemma scalingAdapt_spacing_pos (st : Render) :
  0 < spacing st -> 0 < spacing (scalingAdapt st).
Proof.
  intros Hsp. unfold scalingAdapt.
  destruct (Qle_bool (scale st * spacing st) 66).
  - destruct (Qeq_bool (spacing st) 2); simpl; lra.
  - destruct (Qle_bool 138 (scale st * spacing st)); [|assumption].
    destruct (Qeq_bool (spacing st) 5); simpl; [lra|].
    apply Qlt_shift_div_l; lra.
Qed.

(** ** Grid spacing *)

Lemma scalingAdapt_frame (st : Render) :
  scale (scalingAdapt st) = scale st /\
  center (scalingAdapt st) = center st /\
  mousePoint (scalingAdapt st) = mousePoint st /\
  canvas_width (scalingAdapt st) = canvas_width st /\
  cameraPosition (scalingAdapt st) = cameraPosition st /\
  functionList (scalingAdapt st) = functionList st /\
  displayedPoints (scalingAdapt st) = displayedPoints st /\
  posted (scalingAdapt st) = posted st.
Proof.
  unfold scalingAdapt.
  destruct (Qle_bool (scale st * spacing st) 66);
    [destruct (Qeq_bool (spacing st) 2)
    |destruct (Qle_bool 138 (scale st * spacing st));
       [destruct (Qeq_bool (spacing st) 5)|]];
    repeat split.
Qed.

Lemma scalingAdapt_low (st : Render) :
  scale st * spacing st <= 66 ->
  scalingAdapt st =
  if Qeq_bool (spacing st) 2 then set_spacing 5 st
  else set_spacing (spacing st * 2) st.
Proof.
  intros Hle. apply Qle_bool_iff in Hle. unfold scalingAdapt. now rewrite Hle.
Qed.

Lemma scalingAdapt_high (st : Render) :
  138 <= scale st * spacing st ->
  scalingAdapt st =
  if Qeq_bool (spacing st) 5 then set_spacing 2 st
  else set_spacing (spacing st / 2) st.
Proof.
  intros Hge.
  assert (Hnle : Qle_bool (scale st * spacing st) 66 = false)
    by (apply Qle_bool_false; lra).
  apply Qle_bool_iff in Hge. unfold scalingAdapt. now rewrite Hnle, Hge.
Qed.

Lemma scalingAdapt_between (st : Render) :
  ~ scale st * spacing st <= 66 -> ~ 138 <= scale st * spacing st ->
  scalingAdapt st = st.
Proof.
  intros Hnle Hnge. unfold scalingAdapt.
  destruct (Qle_bool (scale st * spacing st) 66) eqn:E1.
  - apply Qle_bool_iff in E1. contradiction.
  - destruct (Qle_bool 138 (scale st * spacing st)) eqn:E2; [|reflexivity].
    apply Qle_bool_iff in E2. contradiction.
Qed.

Lemma Qeq_bool_false (x y : Q) : ~ x == y -> Qeq_bool x y = false.
Proof.
  intros Hne. destruct (Qeq_bool x y) eqn:E; [|reflexivity].
  apply Qeq_bool_iff in E. contradiction.
Qed.

(** C4.  One call of [scalingAdapt]: when [scale * spacing <= 66] the
    spacing becomes 5 if it was 2 and is doubled otherwise; when
    [scale * spacing >= 138] it becomes 2 if it was 5 and is halved
    otherwise; in every other case it is unchanged.  The scale is never
    touched. *)
Theorem scalingAdapt_cases (st : Render) :
  (scale st * spacing st <= 66 ->
     (spacing st == 2 -> spacing (scalingAdapt st) = 5) /\
     (~ spacing st == 2 -> spacing (scalingAdapt st) = spacing st * 2)) /\
  (138 <= scale st * spacing st ->
     (spacing st == 5 -> spacing (scalingAdapt st) = 2) /\
     (~ spacing st == 5 -> spacing (scalingAdapt st) = spacing st / 2)) /\
  (~ scale st * spacing st <= 66 -> ~ 138 <= scale st * spacing st ->
     spacing (scalingAdapt st) = spacing st /\ scalingAdapt st = st) /\
  scale (scalingAdapt st) = scale st.
Proof.
  split; [|split; [|split]].
  - intros Hle. rewrite (scalingAdapt_low st Hle). split; intros H2.
    + apply Qeq_bool_iff in H2. now rewrite H2.
    + now rewrite (Qeq_bool_false _ _ H2).
  - intros Hge. rewrite (scalingAdapt_high st Hge). split; intros H5.
    + apply Qeq_bool_iff in H5. now rewrite H5.
    + now rewrite (Qeq_bool_false _ _ H5).
  - intros Hnle Hnge. now rewrite (scalingAdapt_between st Hnle Hnge).
  - apply scalingAdapt_frame.
Qed.

(** Away from a grid unit of 2, a product of exactly 66 is settled by one
    adjustment: the unit doubles, the product becomes 132, and a second
    call changes nothing. *)
Lemma scalingAdapt_boundary_settles (st : Render) :
  scale st * spacing st == 66 -> ~ spacing st == 2 ->
  spacing (scalingAdapt st) = spacing st * 2 /\
  scalingAdapt (scalingAdapt st) = scalingAdapt st.
Proof.
  intros H66 H2.
  assert (Hdouble : scalingAdapt st = set_spacing (spacing st * 2) st).
  { rewrite scalingAdapt_low by lra. now rewrite (Qeq_bool_false _ _ H2). }
  rewrite Hdouble. split; [reflexivity|].
  apply scalingAdapt_between; simpl; lra.
Qed.

(** At a grid unit of 2 a product of exactly 66 never settles: the unit
    becomes 5, the product 165, and the next call brings 2 back. *)
Lemma scalingAdapt_boundary_flips (st : Render) :
  scale st * spacing st == 66 -> spacing st == 2 ->
  spacing (scalingAdapt st) = 5 /\
  spacing (scalingAdapt (scalingAdapt st)) = 2.
Proof.
  intros H66 H2.
  assert (Hfive : scalingAdapt st = set_spacing 5 st).
  { rewrite scalingAdapt_low by lra.
    apply Qeq_bool_iff in H2. now rewrite H2. }
  rewrite Hfive. split; [reflexivity|].
  rewrite scalingAdapt_high; [reflexivity|].
  simpl. rewrite H2 in H66. lra.
Qed.

(** ** Messages of the calculation worker *)

(** C8.  A message whose type is none of [compile], [compile-and-set] and
    [evaluate] is ignored: the handler ends normally and leaves the renderer,
    with its function list and its point stream, as it was. *)
Theorem unknown_message_ignored (fuel : nat) (res : Response) (st : Render) :
  res_type res <> "compile"%string ->
  res_type res <> "compile-and-set"%string ->
  res_type res <> "evaluate"%string ->
  handleCalculatingWorkerMessaging fuel res st = Done st /\
  (forall st', handleCalculatingWorkerMessaging fuel res st = Done st' ->
     functionList st' = functionList st /\
     displayedPoints st' = displayedPoints st).
Proof.
  intros Hc Hs He.
  assert (Hrun : handleCalculatingWorkerMessaging fuel res st = Done st).
  { unfold handleCalculatingWorkerMessaging.
    apply String.eqb_neq in Hc, Hs, He. now rewrite Hc, Hs, He. }
  split; [assumption|].
  intros st' Hst'. rewrite Hrun in Hst'. injection Hst' as <-. split; reflexivity.
Qed.

(** ** The empty point stream *)

(** C10.  With an empty point stream both [moveFunctionImage] and
    [zoomFunctionImage] return at once, in every direction and whatever the
    fuel: the renderer is unchanged, so nothing is posted and
    [cameraPosition] keeps its value. *)
Theorem empty_stream_returns_at_once (fuel : nat) (st : Render)
  (moving : MovingDirection) (zooming : ZoomDirection) :
  displayedPoints st = [] ->
  (exists st', moveFunctionImage fuel moving st = Done st' /\
               st' = st /\ posted st' = posted st /\
               cameraPosition st' = cameraPosition st) /\
  (exists st', zoomFunctionImage fuel zooming st = Done st' /\
               st' = st /\ posted st' = posted st /\
               cameraPosition st' = cameraPosition st).
Proof.
  intros Hempty. split; exists st.
  - rewrite moveFunctionImage_empty by assumption. repeat split.
  - rewrite zoomFunctionImage_empty by assumption. repeat split.
Qed.

(** ** POLAR functions *)

Lemma requested_polar_clamped (sp : Q) (func : Function) (b e : Q)
  (direction : MovingDirection) :
  mode func = POLAR -> b < 0 ->
  requested sp func b e direction = requested sp func 0 e direction.
Proof.
  intros Hm Hb. unfold requested. rewrite Hm. simpl.
  apply Qlt_bool_iff in Hb. rewrite Hb. reflexivity.
Qed.

Lemma requested_polar_none (sp : Q) (func : Function) (b e : Q)
  (direction : MovingDirection) :
  mode func = POLAR -> e < 0 -> requested sp func b e direction = [].
Proof.
  intros Hm He. unfold requested. rewrite Hm. simpl.
  apply Qlt_bool_iff in He. rewrite He. reflexivity.
Qed.

Lemma requested_polar_nonneg (sp : Q) (func : Function) (b e : Q)
  (direction : MovingDirection) :
  mode func = POLAR -> 0 < sp ->
  Forall (fun r => 0 <= req_x r) (requested sp func b e direction).
Proof.
  intros Hm Hsp.
  destruct (Qlt_le_dec b 0) as [Hneg|Hpos].
  - rewrite requested_polar_clamped by assumption.
    destruct (requested_samples_slice sp func 0 e direction Hsp) as [Hall _].
    eapply Forall_impl; [|exact Hall]. simpl. tauto.
  - destruct (requested_samples_slice sp func b e direction Hsp) as [Hall _].
    eapply Forall_impl; [|exact Hall]. simpl.
    intros r (_ & _ & _ & _ & _ & Hr & _). lra.
Qed.

(** C9.  For a POLAR function [calculatePoints] ends and never asks for a
    negative abscissa: a negative [beginX] is replaced by 0 (the messages are
    those of the call with [beginX = 0]), a negative [endX] posts nothing,
    and every message posted has [x >= 0]. *)
Theorem polar_requests_nonnegative (func : Function) (beginX endX : Q)
  (direction : MovingDirection) (st : Render) :
  mode func = POLAR -> 0 < spacing st ->
  eventually (fun fuel => exists reqs : list Request,
    calculatePoints fuel func beginX endX direction st = Done (postAll reqs st) /\
    posted (postAll reqs st) = posted st ++ reqs /\
    Forall (fun r => 0 <= req_x r) reqs /\
    (endX < 0 -> reqs = []) /\
    (beginX < 0 -> reqs = requested (spacing st) func 0 endX direction)).
Proof.
  intros Hm Hsp.
  apply eventually_impl with
    (fun fuel => enough fuel beginX endX (delta * spacing st)).
  - intros fuel Hen. exists (requested (spacing st) func beginX endX direction).
    split; [now apply calculatePoints_enough|].
    split; [reflexivity|].
    split; [now apply requested_polar_nonneg|].
    split; intros H.
    + now apply requested_polar_none.
    + now apply requested_polar_clamped.
  - apply eventually_enough. now apply delta_pos.
Qed.

(** ** Pan and zoom *)

(** C2, amended.  A pan over a non-empty point stream, the grid unit positive
    and the scale non-zero, ends and leaves the point stream as it is: no
    point is removed.  With [[oldBegin, oldEnd]] the stored range
    [cameraPosition] and [[newBegin, newEnd]] the range the canvas shows, it
    posts one batch of [evaluate] requests for each registered function in
    turn, and nothing else.  Moving left the batch is over
    [[oldEnd, newEnd]], in increasing x, with [operate = "add"]; moving
    right it is over [[newBegin, oldBegin]], in decreasing x, with
    [operate = "unshift"].  Every request of a batch lies in its slice; the
    batch is the run of its loop, which begins on the edge of the slice
    itself ([oldEnd] moving left, [oldBegin] moving right: the edge of the
    stored range is asked for too) and goes by steps of [delta * spacing]
    until the next abscissa is off the slice; and every abscissa of the
    slice is
    less than one step past a request.  For a POLAR function the part of
    the slice below 0 is left out: a slice that begins below 0 is sampled
    from 0 only, one that ends below 0 not at all, and only the non-negative
    part of the slice is covered. *)
Theorem pan_samples_only_exposed_slice (direction : MovingDirection) (st : Render) :
  displayedPoints st <> [] -> camera_ok st ->
  pan_samples_exposed_slice direction st.
Proof.
  intros Hne [Hsp _].
  eapply eventually_impl; [|apply (moveFunctionImage_eventually direction st Hne Hsp)].
  cbn beta. intros fuel Hrun.
  eexists.
  exists (map (fun func =>
                 requested (spacing st) func (fst (pan_slice direction st))
                           (snd (pan_slice direction st)) direction)
              (functionList st)).
  split; [exact Hrun|]. split; [reflexivity|]. split.
  - cbn [posted set_cameraPosition postAll set_posted]. unfold pan_requests.
    now rewrite flat_map_concat_map.
  - apply Forall2_map_r. intros func. now apply requested_batch_over.
Qed.

(** C3, amended.  A zoom over a non-empty point stream, the grid unit
    positive and the scale non-zero, ends.  With [[oldBegin, oldEnd]] the
    stored range [cameraPosition] and [[newBegin, newEnd]] the range
    [[-center.x/scale, (canvasWidth - center.x)/scale]] of the centre and the
    scale at the call: zooming in, the point stream is emptied and one batch
    over [[newBegin, newEnd]], in increasing x with [operate = "add"], is
    posted for each registered function; zooming out, the point stream is
    kept and two batches are posted for each registered function, one over
    [[newBegin, oldBegin]] in decreasing x with [operate = "unshift"] and
    one over [[oldEnd, newEnd]] in increasing x with [operate = "add"];
    nothing else is posted.  Every request of a batch lies in its range; the
    batch is the run of its loop, from the lower end of the range upwards or
    from its upper end downwards by steps of [delta * spacing]; and every
    abscissa of the range is less than one step past a request.  For a POLAR
    function the part of a range below 0 is left out: a range that begins
    below 0 is sampled from 0 only and one that ends below 0 not at all, so
    that only its non-negative part is covered. *)
Theorem zoom_resamples_visible_range (direction : ZoomDirection) (st : Render) :
  displayedPoints st <> [] -> camera_ok st ->
  zoom_resamples direction st.
Proof.
  intros Hne [Hsp _].
  eapply eventually_impl; [|apply (zoomFunctionImage_eventually direction st Hne Hsp)].
  cbn beta. intros fuel Hrun. eexists. split; [exact Hrun|].
  destruct direction; (split; [reflexivity|]).
  - exists (map (fun func =>
                   requested (spacing st) func (visibleBegin st) (visibleEnd st) LEFT)
                (functionList st)).
    split.
    + cbn [posted set_cameraPosition postAll set_posted set_displayedPoints].
      unfold zoom_requests. now rewrite flat_map_concat_map.
    + apply Forall2_map_r. intros func. now apply requested_batch_over.
  - exists (map (fun func =>
                   (requested (spacing st) func (visibleBegin st)
                              (fst (cameraPosition st)) RIGHT,
                    requested (spacing st) func (snd (cameraPosition st))
                              (visibleEnd st) LEFT))
                (functionList st)).
    split.
    + cbn [posted set_cameraPosition postAll set_posted].
      unfold zoom_requests. now rewrite flat_map_pairs.
    + apply Forall2_map_r. intros func.
      split; now apply requested_batch_over.
Qed.

Lemma moveFunctionImage_refreshes (direction : MovingDirection) (st : Render) :
  displayedPoints st <> [] -> 0 < spacing st ->
  refreshed_by (fun fuel => moveFunctionImage fuel direction st).
Proof.
  intros Hne Hsp.
  eapply eventually_impl; [|apply (moveFunctionImage_eventually direction st Hne Hsp)].
  simpl. intros fuel Hrun. eexists. split; [exact Hrun|].
  split; reflexivity.
Qed.

Lemma zoomFunctionImage_refreshes (direction : ZoomDirection) (st : Render) :
  displayedPoints st <> [] -> 0 < spacing st ->
  refreshed_by (fun fuel => zoomFunctionImage fuel direction st).
Proof.
  intros Hne Hsp.
  eapply eventually_impl; [|apply (zoomFunctionImage_eventually direction st Hne Hsp)].
  simpl. intros fuel Hrun. eexists. split; [exact Hrun|].
  destruct direction; split; reflexivity.
Qed.

Lemma handleMouseMove_refreshes (rect : DOMRect) (cx cy : Q)
  (direction : MovingDirection) (st : Render) :
  displayedPoints st <> [] -> 0 < spacing st -> mouseDown st = true ->
  refreshed_by (fun fuel => handleMouseMove fuel rect cx cy direction st).
Proof.
  intros Hne Hsp Hdown. unfold handleMouseMove.
  cbn [mouseDown refreshMousePoint set_mousePoint]. rewrite Hdown.
  cbn [negb]. apply moveFunctionImage_refreshes; assumption.
Qed.

Lemma handleTouchZoom_refreshes (rect : DOMRect) (cxA cyA cxB cyB : Q) (st : Render) :
  displayedPoints st <> [] -> 0 < spacing st -> truthy (zoomingScale st) = true ->
  refreshed_by (fun fuel => handleTouchZoom fuel rect cxA cyA cxB cyB st).
Proof.
  intros Hne Hsp Hzs. unfold handleTouchZoom.
  set (zoomingSize := pinchSize _ _ _ _ _).
  set (st1 := if negb (truthy (lastZoomingSize st)) then _ else st).
  assert (H1 : zoomingScale st1 = zoomingScale st /\
               displayedPoints st1 = displayedPoints st /\
               spacing st1 = spacing st).
  { subst st1. destruct (negb (truthy (lastZoomingSize st))); repeat split. }
  destruct H1 as (Hz1 & Hd1 & Hs1). rewrite Hz1.
  destruct (zoomingScale st) as [zs|]; [|discriminate].
  rewrite Hzs.
  set (st2 := scalingAdapt (set_scale (zoomingSize / zs) st1)).
  set (direction := match lastZoomingSize st2 with Some _ => _ | None => _ end).
  assert (Hne2 : displayedPoints st2 <> []).
  { subst st2.
    destruct (scalingAdapt_frame (set_scale (zoomingSize / zs) st1))
      as (_ & _ & _ & _ & _ & _ & Hd & _).
    rewrite Hd. simpl. now rewrite Hd1. }
  assert (Hsp2 : 0 < spacing st2).
  { subst st2. apply scalingAdapt_spacing_pos. simpl. now rewrite Hs1. }
  eapply eventually_impl; [|apply (zoomFunctionImage_refreshes direction st2 Hne2 Hsp2)].
  simpl. intros fuel (st' & Hrun & Hinv). rewrite Hrun. simpl.
  eexists. split; [reflexivity|]. exact Hinv.
Qed.

(** C1, amended.  When the point stream is not empty (the camera being well
    formed), [moveFunctionImage] and [zoomFunctionImage] end with
    [cameraPosition] equal to
    [[-center.x/scale, (canvasWidth - center.x)/scale]]; so do a drag step of
    [handleMouseMove] and a rescaling step of [handleTouchZoom] (the two
    fingers apart), which end with that call. *)
Theorem cameraPosition_refreshed (st : Render) (rect : DOMRect)
  (cxA cyA cxB cyB : Q) (moving : MovingDirection) (zooming : ZoomDirection) :
  displayedPoints st <> [] -> camera_ok st ->
  refreshed_by (fun fuel => moveFunctionImage fuel moving st) /\
  refreshed_by (fun fuel => zoomFunctionImage fuel zooming st) /\
  (mouseDown st = true ->
   refreshed_by (fun fuel => handleMouseMove fuel rect cxA cyA moving st)) /\
  (truthy (zoomingScale st) = true ->
   ~ pinchSize rect (cxA * ratio st) (cyA * ratio st)
               (cxB * ratio st) (cyB * ratio st) == 0 ->
   refreshed_by (fun fuel => handleTouchZoom fuel rect cxA cyA cxB cyB st)).
Proof.
  intros Hne [Hsp _]. repeat split.
  - now apply moveFunctionImage_refreshes.
  - now apply zoomFunctionImage_refreshes.
  - intros Hdown. now apply handleMouseMove_refreshes.
  - intros Hzs _. now apply handleTouchZoom_refreshes.
Qed.

(** ** The wheel *)



(** What a wheel event leaves over a non-empty point stream: the stored
    range is the one of the centre before the recentring, at the new
    scale. *)
Lemma handleWheel_stores_old_range (dy : Q) (st : Render) :
  displayedPoints st <> [] -> 0 < spacing st ->
  eventually (fun fuel => exists st',
    handleWheel fuel dy st = Done st' /\
    canvas_width st' = canvas_width st /\
    scale st' = (if Qlt_bool 0 dy then scale st - 7 / spacing st
                 else scale st + 7 / spacing st) /\
    px (center st') =
      px (center st) +
      ((px (mousePoint st) - px (center st)) / scale st' -
       (px (mousePoint st) - px (center st)) / scale st) * scale st' /\
    fst (cameraPosition st') = - px (center st) / scale st' /\
    snd (cameraPosition st') = (canvas_width st - px (center st)) / scale st').
Proof.
  intros Hne Hsp. unfold handleWheel.
  set (st1 := if Qlt_bool 0 dy then set_scale _ st else _).
  set (zooming := if Qlt_bool 0 dy then ZOOM_OUT else ZOOM_IN).
  assert (H1 : spacing st1 = spacing st /\ center st1 = center st /\
               mousePoint st1 = mousePoint st /\
               canvas_width st1 = canvas_width st /\
               displayedPoints st1 = displayedPoints st /\
               scale st1 = (if Qlt_bool 0 dy then scale st - 7 / spacing st
                            else scale st + 7 / spacing st)).
  { subst st1. destruct (Qlt_bool 0 dy); repeat split. }
  destruct H1 as (Hsp1 & Hc1 & Hm1 & Hw1 & Hd1 & Hs1).
  destruct (scalingAdapt_frame st1) as (Hs2 & Hc2 & Hm2 & Hw2 & _ & _ & Hd2 & _).
  assert (Hsp2 : 0 < spacing (scalingAdapt st1)).
  { apply scalingAdapt_spacing_pos. now rewrite Hsp1. }
  assert (Hne2 : displayedPoints (scalingAdapt st1) <> []).
  { now rewrite Hd2, Hd1. }
  eapply eventually_impl;
    [|apply (zoomFunctionImage_eventually zooming (scalingAdapt st1) Hne2 Hsp2)].
  simpl. intros fuel Hrun. rewrite Hrun. simpl.
  eexists. split; [reflexivity|]. simpl. unfold visibleBegin, visibleEnd.
  assert (Hfields :
    forall st0,
      st0 = match zooming with
            | ZOOM_IN => set_displayedPoints [] (scalingAdapt st1)
            | ZOOM_OUT => scalingAdapt st1
            end ->
      canvas_width st0 = canvas_width st /\ scale st0 = scale st1 /\
      center st0 = center st /\ mousePoint st0 = mousePoint st).
  { intros st0 ->. destruct zooming; simpl; rewrite Hw2, Hs2, Hc2, Hm2;
      repeat split; assumption. }
  destruct (Hfields _ eq_refl) as (Hw3 & Hs3 & Hc3 & Hm3).
  rewrite Hw3, Hs3, Hc3, Hm3, Hw2, Hs2, Hc2, Hw1, Hc1, Hs1.
  repeat split.
Qed.

(** ** Replacing a function *)

Lemma List_set_get {A : Type} (l : list A) (index : nat) (x : A) :
  (index < List.length l)%nat -> List_get (List_set l index x) index = Some x.
Proof.
  revert index. induction l as [|h t IH]; intros [|n] Hlt; simpl in *;
    try lia; try reflexivity.
  apply IH. lia.
Qed.

Lemma List_set_get_other {A : Type} (l : list A) (index i : nat) (x : A) :
  i <> index -> List_get (List_set l index x) i = List_get l i.
Proof.
  revert index i. induction l as [|h t IH]; intros [|n] [|i] Hne; simpl;
    try reflexivity; try congruence.
  apply IH. congruence.
Qed.

Lemma List_set_length {A : Type} (l : list A) (index : nat) (x : A) :
  List.length (List_set l index x) = List.length l.
Proof.
  revert index. induction l as [|h t IH]; intros [|n]; simpl; auto.
Qed.

Lemma List_get_lt {A : Type} (l : list A) (index : nat) (x : A) :
  List_get l index = Some x -> (index < List.length l)%nat.
Proof.
  unfold List_get. intros H. apply nth_error_Some. congruence.
Qed.

Lemma compile_and_set_eventually (res : Response) (st : Render)
  (oldFunction : Function) :
  res_type res = "compile-and-set"%string ->
  List_get (functionList st) (res_index res) = Some oldFunction ->
  0 < spacing st ->
  eventually (fun fuel =>
    handleCalculatingWorkerMessaging fuel res st =
    Done (postAll
            (refresh_requests
               (set_functionList
                  (List_set (functionList st) (res_index res)
                     (newFunction (id oldFunction) (res_mode res)
                                  (RootToken_create (res_root res)))) st))
            (set_displayedPoints []
               (set_functionList
                  (List_set (functionList st) (res_index res)
                     (newFunction (id oldFunction) (res_mode res)
                                  (RootToken_create (res_root res)))) st)))).
Proof.
  intros Htype Hget Hsp.
  set (st1 := set_functionList _ st).
  assert (Hsp1 : 0 < spacing st1) by exact Hsp.
  eapply eventually_impl; [|apply (fullyRefreshFunctions_eventually st1 Hsp1)].
  cbn beta. intros fuel Hrun.
  unfold handleCalculatingWorkerMessaging. rewrite Htype. simpl.
  rewrite Hget. exact Hrun.
Qed.

(** C7, amended.  A [compile-and-set] response for a position that holds a
    function (the grid unit positive, the scale non-zero) ends with that
    function replaced by one of the same id carrying the new mode and root,
    every other position as it was, the point stream empty, and, posted
    after what had been posted, one batch per registered function and
    nothing else: the batch over the visible range
    [[-center.x/scale, (canvasWidth - center.x)/scale]], in increasing x with
    [operate = "add"], which is the run of the loop from the left edge by
    steps of [delta * spacing] and leaves no abscissa of the range a step or
    more past a request.  For a POLAR function the batch begins at 0 when the
    range begins below 0 and is empty when the range ends below 0: only the
    non-negative part of the range is resampled. *)
Theorem compile_and_set_replaces_and_refreshes (res : Response) (st : Render)
  (oldFunction : Function) :
  res_type res = "compile-and-set"%string ->
  List_get (functionList st) (res_index res) = Some oldFunction ->
  camera_ok st ->
  eventually (fun fuel => exists (st' : Render) (batches : list (list Request)),
    handleCalculatingWorkerMessaging fuel res st = Done st' /\
    List_get (functionList st') (res_index res) =
      Some (newFunction (id oldFunction) (res_mode res)
                        (RootToken_create (res_root res))) /\
    List.length (functionList st') = List.length (functionList st) /\
    (forall i, i <> res_index res ->
       List_get (functionList st') i = List_get (functionList st) i) /\
    displayedPoints st' = [] /\
    posted st' = posted st ++ List.concat batches /\
    Forall2 (fun func batch =>
               batch_over (delta * spacing st) func
                 (visibleBegin st) (visibleEnd st) LEFT batch)
            (functionList st') batches).
Proof.
  intros Htype Hget [Hsp _].
  eapply eventually_impl;
    [|apply (compile_and_set_eventually res st oldFunction Htype Hget Hsp)].
  cbn beta. intros fuel Hrun.
  set (replacement := newFunction (id oldFunction) (res_mode res)
                                  (RootToken_create (res_root res))) in *.
  set (st1 := set_functionList
                (List_set (functionList st) (res_index res) replacement) st) in *.
  eexists.
  exists (map (fun func =>
                 requested (spacing st) func (visibleBegin st) (visibleEnd st) LEFT)
              (functionList st1)).
  split; [exact Hrun|].
  cbn [functionList displayedPoints posted postAll set_posted set_displayedPoints].
  split; [apply List_set_get; now apply List_get_lt with oldFunction|].
  split; [apply List_set_length|].
  split; [intros i Hi; now apply List_set_get_other|].
  split; [reflexivity|]. split.
  - unfold refresh_requests. now rewrite flat_map_concat_map.
  - apply Forall2_map_r. intros func. now apply requested_batch_over.
Qed.

End Properties.

(** * The properties on the example renderers *)

(** ** Grid spacing at the boundary *)

(** C5.  At 33 pixels per unit and a grid unit of 2 the product is exactly
    66, and [scalingAdapt] applied again and again gives the grid units
    5, 2, 5, 2: it goes back and forth between two values and never
    settles. *)
Theorem scalingAdapt_oscillates_at_boundary :
  scale at_boundary * spacing at_boundary == 66 /\
  spacing (scalingAdapt at_boundary) == 5 /\
  spacing (scalingAdapt (scalingAdapt at_boundary)) == 2 /\
  spacing (scalingAdapt (scalingAdapt (scalingAdapt at_boundary))) == 5 /\
  spacing (scalingAdapt (scalingAdapt (scalingAdapt (scalingAdapt at_boundary)))) == 2.
Proof. repeat split. Qed.

(** The same on wheel events: from 36.5 pixels per unit and a grid unit of
    2, four identical wheel steps out give the grid units 5, 2, 5, 5. *)
Example repeated_wheel_flips_spacing :
  exists st1 st2 st3 st4,
    handleWheel 0 1 before_boundary = Done st1 /\
    handleWheel 0 1 st1 = Done st2 /\
    handleWheel 0 1 st2 = Done st3 /\
    handleWheel 0 1 st3 = Done st4 /\
    scale st1 == 33 /\
    spacing st1 == 5 /\ spacing st2 == 2 /\ spacing st3 == 5 /\ spacing st4 == 5.
Proof.
  do 4 eexists.
  split; [vm_compute; reflexivity|].
  split; [vm_compute; reflexivity|].
  split; [vm_compute; reflexivity|].
  split; [vm_compute; reflexivity|].
  repeat split.
Qed.

(** ** The empty point stream *)

(** C10 on a renderer that waits for its first sample. *)
Lemma empty_stream_returns_at_once_witness :
  displayedPoints waiting_dragged = [] /\
  moveFunctionImage 0 LEFT waiting_dragged = Done waiting_dragged /\
  zoomFunctionImage 0 ZOOM_IN waiting_dragged = Done waiting_dragged.
Proof.
  destruct (empty_stream_returns_at_once 0 waiting_dragged LEFT ZOOM_IN eq_refl)
    as [(st1 & Hmove & -> & _) (st2 & Hzoom & -> & _)].
  repeat split; assumption.
Defined.

(** C1 as stated fails.  A drag step on an empty point stream moves the
    centre and leaves the stored range behind: the button is down at the
    centre of the canvas, the mouse moves ten pixels right, the canvas now
    shows [[-60, 40]] and the stored range is still [[-50, 50]].  The camera
    invariant does not hold after the step. *)
Lemma drag_on_empty_stream_breaks_invariant :
  (exists st',
     (forall fuel,
        handleMouseMove fuel origin_rect 60 50 RIGHT waiting_pressed = Done st') /\
     px (center st') == 60 /\
     cameraPosition st' = (-50, 50) /\
     visibleBegin st' == -60 /\ visibleEnd st' == 40) /\
  ~ refreshed_by (fun fuel =>
                    handleMouseMove fuel origin_rect 60 50 RIGHT waiting_pressed).
Proof.
  split.
  - eexists. split; [intros fuel; vm_compute; reflexivity|].
    repeat split.
  - intros [fuel0 H]. destruct (H fuel0 (le_n _)) as (st' & Hrun & Hinv).
    vm_compute in Hrun. injection Hrun as <-.
    destruct Hinv as [Hbegin _]. vm_compute in Hbegin. discriminate.
Qed.

(** C2 as stated fails.  A pan on an empty point stream posts nothing,
    though a function is registered and the slice [[50, 60]], with its
    eleven samples, is exposed. *)
Lemma pan_on_empty_stream_samples_nothing :
  functionList waiting_dragged = [parabola] /\
  fst (pan_slice LEFT waiting_dragged) == 50 /\
  snd (pan_slice LEFT waiting_dragged) == 60 /\
  List.length (pan_requests LEFT waiting_dragged) = 11%nat /\
  (forall fuel, exists st',
     moveFunctionImage fuel LEFT waiting_dragged = Done st' /\
     posted st' = posted waiting_dragged) /\
  ~ pan_samples_exposed_slice LEFT waiting_dragged.
Proof.
  repeat split.
  - intros fuel. exists waiting_dragged. split; reflexivity.
  - intros [fuel0 H].
    destruct (H fuel0 (le_n _)) as (st' & batches & Hrun & _ & Hposted & Hbatches).
    rewrite moveFunctionImage_empty in Hrun by reflexivity. injection Hrun as <-.
    change (functionList waiting_dragged) with [parabola] in Hbatches.
    inversion Hbatches as [|func batch funcs rest [_ Hbatch] Hrest]; subst.
    inversion Hrest; subst.
    cbn [posted waiting_dragged] in Hposted.
    assert (Hnil : batch = []).
    { destruct batch; [reflexivity|]. vm_compute in Hposted. discriminate Hposted. }
    subst batch. vm_compute in Hbatch. discriminate Hbatch.
Qed.

(** C3 as stated fails.  A zoom in on an empty point stream posts nothing,
    though a function is registered and the range [[-50, 50]], with its 101
    samples, is visible. *)
Lemma zoom_on_empty_stream_samples_nothing :
  functionList waiting = [parabola] /\
  visibleBegin waiting == -50 /\ visibleEnd waiting == 50 /\
  List.length (zoom_requests ZOOM_IN waiting) = 101%nat /\
  (forall fuel, exists st',
     zoomFunctionImage fuel ZOOM_IN waiting = Done st' /\
     posted st' = posted waiting) /\
  ~ zoom_resamples ZOOM_IN waiting.
Proof.
  repeat split.
  - intros fuel. exists waiting. split; reflexivity.
  - intros [fuel0 H].
    destruct (H fuel0 (le_n _)) as (st' & Hrun & _ & batches & Hposted & Hbatches).
    rewrite zoomFunctionImage_empty in Hrun by reflexivity. injection Hrun as <-.
    change (functionList waiting) with [parabola] in Hbatches.
    inversion Hbatches as [|func batch funcs rest [_ Hbatch] Hrest]; subst.
    inversion Hrest; subst.
    assert (Hnil : batch = []).
    { destruct batch; [reflexivity|]. vm_compute in Hposted. discriminate Hposted. }
    subst batch. vm_compute in Hbatch. discriminate Hbatch.
Qed.

(** ** Pan and zoom over a plotted function *)

(** C1, amended, on a drag over one plotted point. *)
Lemma cameraPosition_refreshed_witness :
  displayedPoints plotted_pressed <> [] /\
  camera_ok plotted_pressed /\
  refreshed_by (fun fuel => handleMouseMove fuel origin_rect 60 50 RIGHT plotted_pressed).
Proof.
  split; [discriminate|]. split; [split; [reflexivity|discriminate]|].
  apply (cameraPosition_refreshed plotted_pressed origin_rect 60 50 0 0 RIGHT ZOOM_IN);
    [discriminate|split; [reflexivity|discriminate]|reflexivity].
Defined.

(** C2, amended, on a pan to the left over one plotted point. *)
Lemma pan_samples_only_exposed_slice_witness :
  displayedPoints plotted_dragged <> [] /\
  camera_ok plotted_dragged /\
  pan_samples_exposed_slice LEFT plotted_dragged.
Proof.
  split; [discriminate|]. split; [split; [reflexivity|discriminate]|].
  apply pan_samples_only_exposed_slice;
    [discriminate|split; [reflexivity|discriminate]].
Defined.

(** C3, amended, on a zoom in over one plotted point. *)
Lemma zoom_resamples_visible_range_witness :
  displayedPoints plotted <> [] /\
  camera_ok plotted /\
  zoom_resamples ZOOM_IN plotted.
Proof.
  split; [discriminate|]. split; [split; [reflexivity|discriminate]|].
  apply zoom_resamples_visible_range;
    [discriminate|split; [reflexivity|discriminate]].
Defined.

(** The eleven samples of the slice [[50, 60]]. *)
Example pan_left_posts_the_slice :
  exists st',
    moveFunctionImage 11 LEFT plotted_dragged = Done st' /\
    Forall2 Qeq (map req_x (posted st')) [50; 51; 52; 53; 54; 55; 56; 57; 58; 59; 60] /\
    Forall (fun r => req_operate r = "add"%string) (posted st') /\
    displayedPoints st' = displayedPoints plotted_dragged /\
    cameraPosition st' = (visibleBegin plotted_dragged, visibleEnd plotted_dragged).
Proof.
  eexists. split; [vm_compute; reflexivity|].
  split; [|split; [|split]].
  - cbn [posted map req_x]. repeat constructor.
  - cbn [posted]. repeat constructor.
  - reflexivity.
  - reflexivity.
Qed.

(** With too little fuel the model of the loop does not end. *)
Example pan_left_needs_fuel :
  moveFunctionImage 10 LEFT plotted_dragged = Diverges.
Proof. vm_compute. reflexivity. Qed.

(** A pinch that doubles the distance of the fingers: the scale doubles,
    the grid unit is halved, the stream is emptied, the 101 samples of
    [[-25, 25]] are asked for and the stored range is the visible one. *)
Example pinch_out_zooms_in :
  exists st',
    handleTouchZoom 101 origin_rect 0 0 2 0 pinching = Done st' /\
    scale st' == 2 /\ spacing st' == 50 /\
    displayedPoints st' = [] /\
    List.length (posted st') = 101%nat /\
    lastZoomingSize st' = Some (2 # 1) /\
    camera_invariant st'.
Proof.
  exists (set_lastZoomingSize (Some (2 # 1))
            (zoomed ZOOM_IN (scalingAdapt (set_scale (2 / 1) pinching)))).
  split; [vm_compute; reflexivity|].
  repeat split; vm_compute; reflexivity.
Qed.

(** ** The wheel *)



(** The wheel recentres after [zoomFunctionImage] has stored the range: when
    the cursor is off the centre the stored range is the one of the old
    centre, [[-25, 25]], while the canvas shows [[-12.5, 37.5]]. *)
Example handleWheel_leaves_cameraPosition_stale :
  eventually (fun fuel => exists st',
    handleWheel fuel (-1) pointing = Done st' /\
    scale st' == 2 /\ px (center st') == 25 /\
    fst (cameraPosition st') == -25 /\ snd (cameraPosition st') == 25 /\
    visibleBegin st' == -(25 # 2) /\ visibleEnd st' == 75 # 2 /\
    ~ camera_invariant st').
Proof.
  assert (Hne : displayedPoints pointing <> []) by discriminate.
  assert (Hsp : 0 < spacing pointing) by reflexivity.
  eapply eventually_impl;
    [|apply (handleWheel_stores_old_range (-1) pointing Hne Hsp)].
  simpl. intros fuel (st' & Hrun & Hw & Hscale & Hcenter & Hb & He).
  exists st'. split; [exact Hrun|].
  assert (Hs : scale st' == 2).
  { rewrite Hscale. vm_compute. reflexivity. }
  assert (Hc : px (center st') == 25).
  { rewrite Hcenter, Hscale. vm_compute. reflexivity. }
  assert (Hb' : fst (cameraPosition st') == -25).
  { rewrite Hb, Hscale. vm_compute. reflexivity. }
  assert (He' : snd (cameraPosition st') == 25).
  { rewrite He, Hscale. vm_compute. reflexivity. }
  assert (Hvb : visibleBegin st' == -(25 # 2)).
  { unfold visibleBegin. rewrite Hc, Hs. reflexivity. }
  assert (Hve : visibleEnd st' == 75 # 2).
  { unfold visibleEnd. rewrite Hc, Hs, Hw. reflexivity. }
  repeat split; try assumption.
  intros [Hinv _]. rewrite Hb', Hvb in Hinv. discriminate.
Qed.

(** ** Messages of the calculation worker *)

(** C8 on a message of type [fps]. *)
Lemma unknown_message_ignored_witness :
  res_type fps_response <> "compile"%string /\
  res_type fps_response <> "compile-and-set"%string /\
  res_type fps_response <> "evaluate"%string /\
  handleCalculatingWorkerMessaging 0 fps_response plotted = Done plotted.
Proof.
  repeat (split; [discriminate|]).
  apply (unknown_message_ignored 0 fps_response plotted); discriminate.
Defined.

(** C7 as stated fails.  [plotted] shows [[-50, 50]]; the edit that makes
    its only function a POLAR one posts 51 requests, none of them below 0:
    the half [[-50, 0)] of the visible range is not resampled. *)
Lemma edit_to_polar_skips_the_negative_half :
  visibleBegin plotted == -50 /\ visibleEnd plotted == 50 /\
  (exists st',
     handleCalculatingWorkerMessaging 51 edit_response plotted = Done st' /\
     functionList st' = [@newFunction exampleHost 0 POLAR tt] /\
     List.length (posted st') = 51%nat /\
     Forall (fun r => 0 <= req_x r) (posted st')) /\
  ~ resamples_full_range edit_response plotted.
Proof.
  assert (Hsp : 0 < spacing plotted) by reflexivity.
  split; [reflexivity|]. split; [reflexivity|]. split.
  - eexists. split; [vm_compute; reflexivity|].
    split; [reflexivity|]. split; [vm_compute; reflexivity|].
    cbn [posted]. repeat (constructor; [discriminate|]). constructor.
  - intros Hfull.
    pose proof (compile_and_set_eventually edit_response plotted parabola
                  eq_refl eq_refl Hsp) as Hrun.
    destruct (eventually_and _ _ Hfull Hrun) as [fuel0 H].
    destruct (H fuel0 (le_n _)) as [(st' & reqs & Hrun1 & Hposted & Hcover) Hrun2].
    rewrite Hrun2 in Hrun1. injection Hrun1 as <-.
    cbn [posted postAll set_posted set_displayedPoints plotted waiting app] in Hposted.
    subst reqs.
    assert (Hin : In (@newFunction exampleHost 0 POLAR tt)
                     [@newFunction exampleHost 0 POLAR tt]) by (left; reflexivity).
    assert (Hb : visibleBegin plotted <= -50) by discriminate.
    assert (He : -50 <= visibleEnd plotted) by discriminate.
    specialize (Hcover _ Hin (-50) Hb He).
    apply Exists_exists in Hcover. destruct Hcover as (r & Hr & _ & Hle & _).
    unfold refresh_requests in Hr. cbn [functionList set_functionList flat_map] in Hr.
    rewrite app_nil_r in Hr.
    pose proof (requested_polar_nonneg (spacing plotted)
                  (@newFunction exampleHost 0 POLAR tt)
                  (visibleBegin plotted) (visibleEnd plotted) LEFT eq_refl Hsp) as Hpos.
    rewrite Forall_forall in Hpos. specialize (Hpos r Hr). lra.
Qed.

(** C7, amended, on the edit of the only function of [plotted]: the POLAR
    function that replaces it is sampled from 0. *)
Lemma compile_and_set_replaces_and_refreshes_witness :
  res_type edit_response = "compile-and-set"%string /\
  List_get (functionList plotted) (res_index edit_response) = Some parabola /\
  camera_ok plotted /\
  eventually (fun fuel => exists st' r rest,
    handleCalculatingWorkerMessaging fuel edit_response plotted = Done st' /\
    List_get (functionList st') 0 = Some (@newFunction exampleHost 0 POLAR tt) /\
    displayedPoints st' = [] /\
    posted st' = r :: rest /\ req_x r = 0).
Proof.
  assert (Hok : camera_ok plotted) by (split; [reflexivity|discriminate]).
  split; [reflexivity|]. split; [reflexivity|]. split; [exact Hok|].
  apply eventually_impl with (2 :=
    compile_and_set_replaces_and_refreshes edit_response plotted parabola
      eq_refl eq_refl Hok).
  intros fuel (st' & batches & Hrun & Hget & Hlen & _ & Hpoints & Hposted & Hbatches).
  exists st'.
  destruct (functionList st') as [|func [|func' funcs]]; try discriminate Hlen.
  injection Hget as ->.
  inversion Hbatches as [|f batch fs rest0 [_ Hbatch] Hrest]; subst.
  inversion Hrest; subst.
  cbn [List.concat posted plotted waiting set_displayedPoints app] in Hposted.
  rewrite app_nil_r in Hposted.
  destruct batch as [|r rest]; [vm_compute in Hbatch; discriminate Hbatch|].
  destruct Hbatch as [Hhead _].
  exists r, rest. repeat split; assumption.
Defined.

(** The edit of [plotted]: the function is now POLAR, the stream is empty,
    and 51 samples are asked for, those of [[0, 50]], from 0 upwards. *)
Example edit_resamples_polar :
  exists st',
    handleCalculatingWorkerMessaging 51 edit_response plotted = Done st' /\
    functionList st' = [@newFunction exampleHost 0 POLAR tt] /\
    displayedPoints st' = [] /\
    List.length (posted st') = 51%nat /\
    Forall2 Qeq (map req_x (firstn 3 (posted st'))) [0; 1; 2].
Proof.
  eexists. split; [vm_compute; reflexivity|].
  split; [reflexivity|]. split; [reflexivity|].
  split; [vm_compute; reflexivity|].
  cbn [posted firstn map req_x]. repeat constructor.
Qed.

(** ** POLAR functions *)

(** C9 on a POLAR function asked for [[-2, 3]]. *)
Lemma polar_requests_nonnegative_witness :
  mode spiral = POLAR /\ 0 < spacing waiting /\
  eventually (fun fuel => exists reqs,
    calculatePoints fuel spiral (-2) 3 LEFT waiting = Done (postAll reqs waiting) /\
    Forall (fun r => 0 <= req_x r) reqs).
Proof.
  repeat (split; [reflexivity|]).
  apply eventually_impl with (2 :=
    polar_requests_nonnegative spiral (-2) 3 LEFT waiting eq_refl eq_refl).
  intros fuel (reqs & Hrun & _ & Hall & _).
  exists reqs. split; assumption.
Defined.

(** Asked for [[-2, 3]], a POLAR function is sampled at 0, 1, 2 and 3. *)
Example polar_samples_from_zero :
  exists st',
    calculatePoints 4 spiral (-2) 3 LEFT waiting = Done st' /\
    Forall2 Qeq (map req_x (posted st')) [0; 1; 2; 3].
Proof.
  eexists. split; [vm_compute; reflexivity|].
  cbn [posted map req_x]. repeat constructor.
Qed.

(** Asked for a range that ends below 0, it is not sampled at all. *)
Example polar_nothing_below_zero :
  calculatePoints 0 spiral (-5) (-1) RIGHT waiting = Done waiting.
Proof. reflexivity. Qed.

(** * Further properties of the renderer *)

Section Methods.

Context {host : Host}.

(** ** Sampling, whatever the fuel *)

Lemma loop_add_posts (fuel : nat) (func : Function) (e dx x : Q) (st st' : Render) :
  loop_add fuel func e dx x st = Done st' ->
  exists xs : list Q,
    st' = postAll (map (fun x => evaluate func x "add") xs) st /\
    Forall (fun y => y <= e) xs.
Proof.
  revert x st. induction fuel as [|fuel IH]; intros x st; simpl;
    destruct (Qle_bool x e) eqn:E; intros H; try discriminate.
  - injection H as <-. exists []. simpl. rewrite postAll_nil.
    split; [reflexivity|constructor].
  - apply IH in H. destruct H as (xs & -> & Hxs).
    exists (x :: xs). simpl. rewrite postAll_cons. split; [reflexivity|].
    constructor; [now apply Qle_bool_iff|assumption].
  - injection H as <-. exists []. simpl. rewrite postAll_nil.
    split; [reflexivity|constructor].
Qed.

Lemma loop_unshift_posts (fuel : nat) (func : Function) (b dx x : Q) (st st' : Render) :
  loop_unshift fuel func b dx x st = Done st' ->
  exists xs : list Q,
    st' = postAll (map (fun x => evaluate func x "unshift") xs) st /\
    Forall (fun y => b <= y) xs.
Proof.
  revert x st. induction fuel as [|fuel IH]; intros x st; simpl;
    destruct (Qle_bool b x) eqn:E; intros H; try discriminate.
  - injection H as <-. exists []. simpl. rewrite postAll_nil.
    split; [reflexivity|constructor].
  - apply IH in H. destruct H as (xs & -> & Hxs).
    exists (x :: xs). simpl. rewrite postAll_cons. split; [reflexivity|].
    constructor; [now apply Qle_bool_iff|assumption].
  - injection H as <-. exists []. simpl. rewrite postAll_nil.
    split; [reflexivity|constructor].
Qed.

Lemma loop_add_no_TypeError (fuel : nat) (func : Function) (e dx x : Q) (st : Render) :
  loop_add fuel func e dx x st <> TypeError.
Proof.
  revert x st. induction fuel as [|fuel IH]; intros x st; simpl;
    destruct (Qle_bool x e); try discriminate. apply IH.
Qed.

Lemma loop_unshift_no_TypeError (fuel : nat) (func : Function) (b dx x : Q) (st : Render) :
  loop_unshift fuel func b dx x st <> TypeError.
Proof.
  revert x st. induction fuel as [|fuel IH]; intros x st; simpl;
    destruct (Qle_bool b x); try discriminate. apply IH.
Qed.

Lemma calculatePoints_posts (fuel : nat) (func : Function) (b e : Q)
  (direction : MovingDirection) (st st' : Render) :
  calculatePoints fuel func b e direction st = Done st' ->
  exists reqs : list Request,
    st' = postAll reqs st /\
    Forall (fun r =>
              req_type r = "evaluate"%string /\ req_id r = id func /\
              req_mode r = mode func /\ req_root r = root func /\
              req_operate r = operate_of direction /\
              match direction with
              | LEFT => req_x r <= e
              | RIGHT => b <= req_x r /\ (mode func = POLAR -> 0 <= req_x r)
              end) reqs.
Proof.
  unfold calculatePoints.
  set (b' := if is_POLAR (mode func) && Qlt_bool b 0 then 0 else b).
  assert (Hb : b <= b' /\ (mode func = POLAR -> 0 <= b')).
  { subst b'. destruct (mode func); simpl.
    - split; [lra|discriminate].
    - destruct (Qlt_bool b 0) eqn:E.
      + apply Qlt_bool_iff in E. split; intros; lra.
      + split; [lra|]. intros _.
        unfold Qlt_bool in E. apply negb_false_iff, Qle_bool_iff in E. exact E. }
  destruct Hb as [Hb Hpol].
  destruct (is_POLAR (mode func) && Qlt_bool e 0).
  - intros H. injection H as <-. exists []. rewrite postAll_nil.
    split; [reflexivity|constructor].
  - destruct direction; intros H.
    + apply loop_add_posts in H. destruct H as (xs & -> & Hxs).
      eexists. split; [reflexivity|]. apply Forall_map.
      eapply Forall_impl; [|exact Hxs]. simpl. intros y Hy. repeat split; assumption.
    + apply loop_unshift_posts in H. destruct H as (xs & -> & Hxs).
      eexists. split; [reflexivity|]. apply Forall_map.
      eapply Forall_impl; [|exact Hxs]. simpl. intros y Hy.
      repeat split; try reflexivity; [lra|]. intros Hm. specialize (Hpol Hm). lra.
Qed.

Lemma calculatePoints_no_TypeError (fuel : nat) (func : Function) (b e : Q)
  (direction : MovingDirection) (st : Render) :
  calculatePoints fuel func b e direction st <> TypeError.
Proof.
  unfold calculatePoints.
  destruct (is_POLAR (mode func) && Qlt_bool e 0); [discriminate|].
  destruct direction; [apply loop_add_no_TypeError|apply loop_unshift_no_TypeError].
Qed.

(** X1.  Whatever the fuel and the grid unit, [calculatePoints] never throws,
    and when it returns it has done nothing but post: the renderer is the
    one it was given with some messages appended to the log, each an
    [evaluate] request carrying the id, mode and root of the function and the
    [operate] of the direction; going up no abscissa is past [endX], going
    down none is below [beginX], nor below 0 for a POLAR function. *)
Theorem calculatePoints_does_nothing_but_post (fuel : nat) (func : Function)
  (beginX endX : Q) (direction : MovingDirection) (st : Render) :
  calculatePoints fuel func beginX endX direction st <> TypeError /\
  forall st' : Render,
    calculatePoints fuel func beginX endX direction st = Done st' ->
    exists reqs : list Request,
      st' = postAll reqs st /\
      posted st' = posted st ++ reqs /\
      functionList st' = functionList st /\
      displayedPoints st' = displayedPoints st /\
      cameraPosition st' = cameraPosition st /\
      Forall (fun r =>
                req_type r = "evaluate"%string /\ req_id r = id func /\
                req_mode r = mode func /\ req_root r = root func /\
                req_operate r = operate_of direction /\
                match direction with
                | LEFT => req_x r <= endX
                | RIGHT => beginX <= req_x r /\ (mode func = POLAR -> 0 <= req_x r)
                end) reqs.
Proof.
  split; [apply calculatePoints_no_TypeError|].
  intros st' H. apply calculatePoints_posts in H.
  destruct H as (reqs & -> & Hreqs). exists reqs. repeat split. exact Hreqs.
Qed.

(** X2.  With a grid unit that is not positive the step of the loop is not
    positive either, and [calculatePoints] over a non-empty range that
    starts at 0 or above never returns, in either direction. *)
Theorem calculatePoints_hangs_without_step (fuel : nat) (func : Function)
  (beginX endX : Q) (direction : MovingDirection) (st : Render) :
  spacing st <= 0 -> 0 <= beginX -> beginX <= endX ->
  calculatePoints fuel func beginX endX direction st = Diverges.
Proof.
  intros Hsp Hb Hbe. unfold calculatePoints.
  assert (Hb0 : Qlt_bool beginX 0 = false).
  { unfold Qlt_bool. apply negb_false_iff, Qle_bool_iff. exact Hb. }
  assert (He0 : Qlt_bool endX 0 = false).
  { unfold Qlt_bool. apply negb_false_iff, Qle_bool_iff. lra. }
  rewrite Hb0, He0, !andb_false_r.
  assert (Hdx : delta * spacing st <= 0) by (unfold delta; lra).
  destruct direction.
  - now apply loop_add_stuck.
  - now apply loop_unshift_stuck.
Qed.

(** ** The run of a loop, whatever the fuel *)

Lemma loop_add_run (fuel : nat) (func : Function) (e dx x : Q) (st st' : Render) :
  loop_add fuel func e dx x st = Done st' ->
  exists xs : list Q,
    st' = postAll (map (fun x => evaluate func x "add") xs) st /\
    run_up dx e x xs.
Proof.
  revert x st. induction fuel as [|fuel IH]; intros x st; simpl;
    destruct (Qle_bool x e) eqn:E; intros H; try discriminate.
  - injection H as <-. exists []. simpl. rewrite postAll_nil.
    split; [reflexivity|now apply Qle_bool_false].
  - apply IH in H. destruct H as (xs & -> & Hxs).
    exists (x :: xs). simpl. rewrite postAll_cons. split; [reflexivity|].
    split; [reflexivity|]. split; [now apply Qle_bool_iff|assumption].
  - injection H as <-. exists []. simpl. rewrite postAll_nil.
    split; [reflexivity|now apply Qle_bool_false].
Qed.

Lemma loop_unshift_run (fuel : nat) (func : Function) (b dx x : Q) (st st' : Render) :
  loop_unshift fuel func b dx x st = Done st' ->
  exists xs : list Q,
    st' = postAll (map (fun x => evaluate func x "unshift") xs) st /\
    run_down dx b x xs.
Proof.
  revert x st. induction fuel as [|fuel IH]; intros x st; simpl;
    destruct (Qle_bool b x) eqn:E; intros H; try discriminate.
  - injection H as <-. exists []. simpl. rewrite postAll_nil.
    split; [reflexivity|now apply Qle_bool_false].
  - apply IH in H. destruct H as (xs & -> & Hxs).
    exists (x :: xs). simpl. rewrite postAll_cons. split; [reflexivity|].
    split; [reflexivity|]. split; [now apply Qle_bool_iff|assumption].
  - injection H as <-. exists []. simpl. rewrite postAll_nil.
    split; [reflexivity|now apply Qle_bool_false].
Qed.

(** X3.  The requests of a batch are the run of its loop.  Whatever the fuel
    and the grid unit, when [calculatePoints] returns it has posted one
    request per abscissa of a list [xs], in that order, where with
    [dx = delta * spacing] and [start] being [beginX], or 0 for a POLAR
    function with a negative [beginX]: going up, [xs] begins at [start],
    each next abscissa is the one before plus [dx] as the loop adds it, none
    is past [endX], and the one after the last is past [endX]; going down,
    [xs] begins at [endX], each next abscissa is the one before minus [dx],
    none is below [start], and the one after the last is below [start].
    When [endX < start] nothing is posted. *)
Theorem calculatePoints_runs_its_loop (fuel : nat) (func : Function)
  (beginX endX : Q) (direction : MovingDirection) (st st' : Render) :
  calculatePoints fuel func beginX endX direction st = Done st' ->
  exists xs : list Q,
    st' = postAll (map (fun x => evaluate func x (operate_of direction)) xs) st /\
    match direction with
    | LEFT => run_up (delta * spacing st) endX (batch_start func beginX) xs
    | RIGHT => run_down (delta * spacing st) (batch_start func beginX) endX xs
    end /\
    (endX < batch_start func beginX -> xs = []).
Proof.
  unfold calculatePoints.
  change (if is_POLAR (mode func) && Qlt_bool beginX 0 then 0 else beginX)
    with (batch_start func beginX).
  destruct (batch_start_bounds func beginX) as [_ Hpol].
  destruct (is_POLAR (mode func) && Qlt_bool endX 0) eqn:Ee.
  - intros H. injection H as <-. exists []. cbn [map]. rewrite postAll_nil.
    split; [reflexivity|]. split; [|reflexivity].
    apply andb_true_iff in Ee. destruct Ee as [Em Ee]. apply Qlt_bool_iff in Ee.
    assert (H0 : 0 <= batch_start func beginX)
      by (apply Hpol; destruct (mode func); [discriminate|reflexivity]).
    destruct direction; cbn [run_up run_down]; lra.
  - destruct direction; intros H.
    + apply loop_add_run in H. destruct H as (xs & -> & Hxs).
      exists xs. split; [reflexivity|]. split; [exact Hxs|].
      intros Hlt. destruct xs as [|y ys]; [reflexivity|].
      destruct Hxs as (_ & Hle & _). lra.
    + apply loop_unshift_run in H. destruct H as (xs & -> & Hxs).
      exists xs. split; [reflexivity|]. split; [exact Hxs|].
      intros Hlt. destruct xs as [|y ys]; [reflexivity|].
      destruct Hxs as (_ & Hle & _). lra.
Qed.

(** ** The responses of the calculation worker *)

Lemma set_displayedPoints_same (st : Render) :
  set_displayedPoints (displayedPoints st) st = st.
Proof. destruct st. reflexivity. Qed.

Lemma handle_evaluate (fuel : nat) (res : Response) (st : Render) :
  res_type res = "evaluate"%string ->
  handleCalculatingWorkerMessaging fuel res st =
  Done (set_displayedPoints
          ((if is_unshift res then [samplePoint res] else []) ++
           displayedPoints st ++
           (if is_add res then [samplePoint res] else [])) st).
Proof.
  intros Ht. unfold handleCalculatingWorkerMessaging, is_add, is_unshift, samplePoint.
  rewrite Ht. simpl.
  destruct (String.eqb (res_operate res) "add") eqn:Ea.
  - apply String.eqb_eq in Ea. rewrite Ea. reflexivity.
  - destruct (String.eqb (res_operate res) "unshift"); simpl.
    + now rewrite app_nil_r.
    + now rewrite app_nil_r, set_displayedPoints_same.
Qed.

Lemma handleMessages_evaluate (fuel : nat) (rs : list Response) (st : Render) :
  Forall (fun res => res_type res = "evaluate"%string) rs ->
  handleMessages fuel rs st =
  Done (set_displayedPoints
          (rev (map samplePoint (filter is_unshift rs)) ++
           displayedPoints st ++
           map samplePoint (filter is_add rs)) st).
Proof.
  intros Hall. revert st. induction Hall as [|res rs Hres Hall IH]; intros st; simpl.
  - now rewrite app_nil_r, set_displayedPoints_same.
  - rewrite (handle_evaluate fuel res st Hres). simpl. rewrite IH.
    unfold set_displayedPoints at 1. simpl. unfold set_displayedPoints. f_equal. f_equal.
    destruct (is_unshift res), (is_add res); simpl;
      rewrite <- ?app_assoc; simpl; rewrite ?app_nil_r; reflexivity.
Qed.

(** X4.  A run of [evaluate] responses, whatever their [operate], never
    fails and changes nothing but the point stream: the samples to
    [unshift] end up in front of the old stream, the last one first, the
    samples to [add] behind it in their order of arrival; a response whose
    [operate] is neither is dropped.  No message is posted and the function
    list is untouched. *)
Theorem evaluate_responses_fill_the_stream (fuel : nat) (rs : list Response)
  (st : Render) :
  Forall (fun res => res_type res = "evaluate"%string) rs ->
  exists st' : Render,
    handleMessages fuel rs st = Done st' /\
    displayedPoints st' =
      rev (map samplePoint (filter is_unshift rs)) ++
      displayedPoints st ++
      map samplePoint (filter is_add rs) /\
    functionList st' = functionList st /\
    posted st' = posted st /\
    cameraPosition st' = cameraPosition st.
Proof.
  intros Hall. eexists. split; [now apply handleMessages_evaluate|].
  repeat split.
Qed.

Lemma StronglySorted_app {A : Type} (R : A -> A -> Prop) (l1 l2 : list A) :
  StronglySorted R l1 -> StronglySorted R l2 ->
  (forall a b, In a l1 -> In b l2 -> R a b) ->
  StronglySorted R (l1 ++ l2).
Proof.
  intros H1 H2 H12. induction H1 as [|a l1 Hl1 IH Ha]; simpl; [assumption|].
  constructor.
  - apply IH. intros x y Hx Hy. apply H12; [now right|assumption].
  - apply Forall_app. split; [assumption|].
    apply Forall_forall. intros y Hy. apply H12; [now left|assumption].
Qed.

Lemma StronglySorted_rev {A : Type} (R : A -> A -> Prop) (l : list A) :
  StronglySorted R l -> StronglySorted (fun a b => R b a) (rev l).
Proof.
  induction 1 as [|a l Hl IH Ha]; simpl; [constructor|].
  apply StronglySorted_app; [assumption|repeat constructor|].
  intros x y Hx [<-|[]]. apply in_rev in Hx.
  rewrite Forall_forall in Ha. now apply Ha.
Qed.

(** X5.  Prepending keeps the stream in order.  When the responses of a
    batch to [unshift] arrive for NORMAL samples with abscissas going down,
    as the requests of the batch were sent, the points they put in front of
    the stream read with abscissas going up. *)
Theorem unshift_batch_reads_upwards (fuel : nat) (rs : list Response) (st : Render) :
  Forall (fun res => res_type res = "evaluate"%string /\
                     res_operate res = "unshift"%string /\
                     res_mode res = NORMAL) rs ->
  StronglySorted (fun r1 r2 => res_x r2 < res_x r1) rs ->
  exists (st' : Render) (front : list Point),
    handleMessages fuel rs st = Done st' /\
    displayedPoints st' = front ++ displayedPoints st /\
    map px front = rev (map res_x rs) /\
    StronglySorted (fun p q => px p < px q) front.
Proof.
  intros Hall Hsorted.
  assert (Hev : Forall (fun res => res_type res = "evaluate"%string) rs).
  { eapply Forall_impl; [|exact Hall]. simpl. tauto. }
  assert (Hun : filter is_unshift rs = rs /\ filter is_add rs = []).
  { clear Hsorted Hev. induction Hall as [|res rs (_ & Hop & _) _ [IH1 IH2]]; simpl.
    - split; reflexivity.
    - unfold is_unshift, is_add. rewrite Hop. simpl. fold (@is_unshift host).
      fold (@is_add host). now rewrite IH1, IH2. }
  destruct Hun as [Hun Hadd].
  assert (Hpx : map samplePoint rs = map (fun res => createPoint (res_x res) (res_y res)) rs).
  { apply map_ext_in. intros res Hin. rewrite Forall_forall in Hall.
    destruct (Hall res Hin) as (_ & _ & Hm). unfold samplePoint. now rewrite Hm. }
  eexists. exists (rev (map samplePoint rs)).
  split; [now apply handleMessages_evaluate|].
  simpl. rewrite Hun, Hadd. simpl. rewrite app_nil_r.
  split; [reflexivity|]. rewrite Hpx. split.
  - rewrite <- map_rev, map_map, <- map_rev. reflexivity.
  - apply StronglySorted_rev with (R := fun p q => px q < px p).
    apply StronglySorted_map with (R := fun p q => px q < px p). exact Hsorted.
Qed.

(** X6.  A POLAR sample lands at the distance of its radius from the
    origin: for a host whose cosine and sine satisfy the Pythagorean
    identity, the point an [add] response of mode POLAR appends has
    [x * x + y * y] equal to the square of the value received. *)
Theorem polar_sample_keeps_radius (fuel : nat) (res : Response) (st : Render) :
  (forall t : Q, Math_cos t * Math_cos t + Math_sin t * Math_sin t == 1) ->
  res_type res = "evaluate"%string ->
  res_operate res = "add"%string ->
  res_mode res = POLAR ->
  exists p : Point,
    handleCalculatingWorkerMessaging fuel res st =
      Done (set_displayedPoints (displayedPoints st ++ [p]) st) /\
    px p * px p + py p * py p == res_y res * res_y res.
Proof.
  intros Hpyth Ht Hop Hm. exists (polarPoint (res_y res) (res_x res)). split.
  - unfold handleCalculatingWorkerMessaging. rewrite Ht, Hop, Hm. reflexivity.
  - unfold polarPoint. simpl.
    transitivity (res_y res * res_y res *
                  (Math_cos (res_x res) * Math_cos (res_x res) +
                   Math_sin (res_x res) * Math_sin (res_x res))); [ring|].
    rewrite Hpyth. ring.
Qed.

Lemma List_getLast_add {A : Type} (l : list A) (x : A) :
  List_getLast (List_add x l) = Some x.
Proof.
  unfold List_getLast, List_add. destruct l as [|h t]; simpl; [reflexivity|].
  now rewrite last_last.
Qed.

(** X7.  A [compile] response never throws.  With a positive grid unit and
    a non-zero scale it returns: the new function is at the end of the
    function list and is the only one sampled, by one batch over the visible
    range [[-center.x/scale, (canvasWidth - center.x)/scale]], in increasing
    x with [operate = "add"]: the run of the loop from the left edge of the
    range (from 0 for a POLAR function when the range begins below 0; no
    request at all for a POLAR function when the range ends below 0) by
    steps of [delta * spacing], every abscissa of the range (of its
    non-negative part, for a POLAR function) less than one step past a
    request.  The point stream is not cleared and the stored range not
    rewritten. *)
Theorem compile_response_registers_and_samples (res : Response) (st : Render) :
  res_type res = "compile"%string -> camera_ok st ->
  (forall fuel, handleCalculatingWorkerMessaging fuel res st <> TypeError) /\
  eventually (fun fuel => exists (st' : Render) (batch : list Request),
    handleCalculatingWorkerMessaging fuel res st = Done st' /\
    functionList st' =
      functionList st ++
      [newFunction (res_id res) (res_mode res) (RootToken_create (res_root res))] /\
    posted st' = posted st ++ batch /\
    batch_over (delta * spacing st)
      (newFunction (res_id res) (res_mode res) (RootToken_create (res_root res)))
      (visibleBegin st) (visibleEnd st) LEFT batch /\
    displayedPoints st' = displayedPoints st /\
    cameraPosition st' = cameraPosition st).
Proof.
  intros Ht [Hsp _].
  set (func := newFunction (res_id res) (res_mode res) (RootToken_create (res_root res))).
  assert (Hrun : forall fuel,
            handleCalculatingWorkerMessaging fuel res st =
            calculatePoints fuel func (visibleBegin st) (visibleEnd st) LEFT
              (set_functionList (List_add func (functionList st)) st)).
  { intros fuel. unfold handleCalculatingWorkerMessaging, drawCompleteFunction.
    rewrite Ht. simpl. fold func. now rewrite List_getLast_add. }
  split.
  - intros fuel. rewrite Hrun. apply calculatePoints_no_TypeError.
  - apply eventually_impl with
      (fun fuel => enough fuel (visibleBegin st) (visibleEnd st) (delta * spacing st));
      [|apply eventually_enough; now apply delta_pos].
    intros fuel Hen. rewrite Hrun.
    rewrite calculatePoints_enough by assumption.
    eexists. exists (requested (spacing st) func (visibleBegin st) (visibleEnd st) LEFT).
    split; [reflexivity|].
    split; [reflexivity|]. split; [reflexivity|].
    split; [now apply requested_batch_over|]. split; reflexivity.
Qed.

(** X8.  A [compile-and-set] response for a position the function list does
    not hold throws, whatever the fuel: the function read there is
    [undefined] and its [id] is asked for. *)
Theorem compile_and_set_out_of_range_throws (fuel : nat) (res : Response)
  (st : Render) :
  res_type res = "compile-and-set"%string ->
  (List.length (functionList st) <= res_index res)%nat ->
  handleCalculatingWorkerMessaging fuel res st = TypeError.
Proof.
  intros Ht Hlen. unfold handleCalculatingWorkerMessaging. rewrite Ht. simpl.
  unfold List_get. apply nth_error_None in Hlen. now rewrite Hlen.
Qed.

(** ** Pan and zoom, with enough fuel and with any *)

Lemma moveFunctionImage_moved (direction : MovingDirection) (st : Render) :
  0 < spacing st ->
  eventually (fun fuel => moveFunctionImage fuel direction st = Done (moved direction st)).
Proof.
  intros Hsp. unfold moved. destruct (displayedPoints st) as [|p ps] eqn:Hd.
  - exists 0%nat. intros fuel _. now apply moveFunctionImage_empty.
  - apply moveFunctionImage_eventually; [congruence|assumption].
Qed.

Lemma zoomFunctionImage_zoomed (direction : ZoomDirection) (st : Render) :
  0 < spacing st ->
  eventually (fun fuel => zoomFunctionImage fuel direction st = Done (zoomed direction st)).
Proof.
  intros Hsp. unfold zoomed. destruct (displayedPoints st) as [|p ps] eqn:Hd.
  - exists 0%nat. intros fuel _. now apply zoomFunctionImage_empty.
  - apply zoomFunctionImage_eventually; [congruence|assumption].
Qed.

Lemma moved_frame (direction : MovingDirection) (st : Render) :
  center (moved direction st) = center st /\
  scale (moved direction st) = scale st /\
  spacing (moved direction st) = spacing st /\
  mousePoint (moved direction st) = mousePoint st /\
  mouseDown (moved direction st) = mouseDown st /\
  mouseDX (moved direction st) = mouseDX st /\
  mouseDY (moved direction st) = mouseDY st /\
  canvas_width (moved direction st) = canvas_width st /\
  ratio (moved direction st) = ratio st /\
  functionList (moved direction st) = functionList st /\
  displayedPoints (moved direction st) = displayedPoints st.
Proof. unfold moved. destruct (displayedPoints st) eqn:E; repeat split; auto. Qed.

Lemma zoomed_frame (direction : ZoomDirection) (st : Render) :
  center (zoomed direction st) = center st /\
  scale (zoomed direction st) = scale st /\
  spacing (zoomed direction st) = spacing st /\
  mousePoint (zoomed direction st) = mousePoint st /\
  canvas_width (zoomed direction st) = canvas_width st /\
  functionList (zoomed direction st) = functionList st.
Proof.
  unfold zoomed. destruct (displayedPoints st); [repeat split|].
  destruct direction; repeat split.
Qed.

Lemma handleMouseMove_dragging (rect : DOMRect) (cx cy : Q)
  (direction : MovingDirection) (st : Render) :
  mouseDown st = true -> 0 < spacing st ->
  eventually (fun fuel =>
    handleMouseMove fuel rect cx cy direction st =
    Done (moved direction (dragged rect cx cy st))).
Proof.
  intros Hdown Hsp. unfold handleMouseMove.
  cbn [mouseDown refreshMousePoint set_mousePoint]. rewrite Hdown. cbn [negb].
  apply (moveFunctionImage_moved direction (dragged rect cx cy st)). exact Hsp.
Qed.

Lemma handleWheel_wheeled (dy : Q) (st : Render) :
  0 < spacing st ->
  eventually (fun fuel => handleWheel fuel dy st = Done (wheeled dy st)).
Proof.
  intros Hsp. unfold handleWheel, wheeled.
  set (st1 := if Qlt_bool 0 dy then set_scale _ st else _).
  assert (Hsp1 : 0 < spacing (scalingAdapt st1)).
  { apply scalingAdapt_spacing_pos. subst st1. now destruct (Qlt_bool 0 dy). }
  eapply eventually_impl;
    [|apply (zoomFunctionImage_zoomed (if Qlt_bool 0 dy then ZOOM_OUT else ZOOM_IN)
               (scalingAdapt st1) Hsp1)].
  simpl. intros fuel Hrun. rewrite Hrun. reflexivity.
Qed.

(** ** Dragging *)

(** X9.  A drag puts the centre where the cursor is, less the offset taken
    at the press.  After [handleMouseDown] at [(cx0, cy0)] a
    [handleMouseMove] at [(cx, cy)], measured against the same rectangle,
    ends with [center.x] equal to the cursor's [cx * ratio - rect.left] less
    the offset [(cx0 * ratio - rect.left) - center.x] recorded at the press,
    and likewise for [center.y]; the scale and the grid unit are as they
    were. *)
Theorem drag_moves_centre_with_cursor (rect : DOMRect) (cx0 cy0 cx cy : Q)
  (direction : MovingDirection) (st : Render) :
  camera_ok st ->
  eventually (fun fuel => exists st' : Render,
    handleMouseMove fuel rect cx cy direction (handleMouseDown rect cx0 cy0 st)
      = Done st' /\
    px (center st') =
      (cx * ratio st - left rect) - ((cx0 * ratio st - left rect) - px (center st)) /\
    py (center st') =
      (cy * ratio st - top rect) - ((cy0 * ratio st - top rect) - py (center st)) /\
    scale st' = scale st /\ spacing st' = spacing st).
Proof.
  intros [Hsp _].
  eapply eventually_impl;
    [|apply (handleMouseMove_dragging rect cx cy direction
               (handleMouseDown rect cx0 cy0 st) eq_refl Hsp)].
  cbn beta. intros fuel Hrun. eexists. split; [exact Hrun|].
  destruct (moved_frame direction (dragged rect cx cy (handleMouseDown rect cx0 cy0 st)))
    as (Hc & Hs & Hg & _).
  rewrite Hc, Hs, Hg. repeat split.
Qed.

(** X10.  During a drag the centre depends on the press and on the last
    cursor position only.  After a press at [(cx0, cy0)], a move to
    [(cx1, cy1)] and a move to [(cx2, cy2)], the centre is the one a single
    move to [(cx2, cy2)] leaves: the cursor's [cx2 * ratio - rect.left] less
    the offset recorded at the press, and likewise for [center.y], wherever
    the first move went.  If the point stream is not empty the stored range
    is then the range the canvas shows. *)
Theorem drag_centre_follows_last_cursor (rect : DOMRect)
  (cx0 cy0 cx1 cy1 cx2 cy2 : Q) (first second : MovingDirection) (st : Render) :
  camera_ok st ->
  eventually (fun fuel => exists st1 st2 : Render,
    handleMouseMove fuel rect cx1 cy1 first (handleMouseDown rect cx0 cy0 st)
      = Done st1 /\
    handleMouseMove fuel rect cx2 cy2 second st1 = Done st2 /\
    px (center st2) =
      (cx2 * ratio st - left rect) - ((cx0 * ratio st - left rect) - px (center st)) /\
    py (center st2) =
      (cy2 * ratio st - top rect) - ((cy0 * ratio st - top rect) - py (center st)) /\
    (displayedPoints st <> [] ->
     cameraPosition st2 = (visibleBegin st2, visibleEnd st2))).
Proof.
  intros [Hsp Hsc].
  set (st0 := handleMouseDown rect cx0 cy0 st).
  set (st1 := moved first (dragged rect cx1 cy1 st0)).
  destruct (moved_frame first (dragged rect cx1 cy1 st0))
    as (Hc1 & Hs1 & Hg1 & Hm1 & Hd1 & Hdx1 & Hdy1 & Hw1 & Hr1 & Hf1 & Hp1).
  fold st1 in Hc1, Hs1, Hg1, Hm1, Hd1, Hdx1, Hdy1, Hw1, Hr1, Hf1, Hp1.
  assert (Hdown1 : mouseDown st1 = true) by (rewrite Hd1; reflexivity).
  assert (Hsp1 : 0 < spacing st1) by (rewrite Hg1; exact Hsp).
  pose proof (eventually_and _ _
    (handleMouseMove_dragging rect cx1 cy1 first st0 eq_refl Hsp)
    (handleMouseMove_dragging rect cx2 cy2 second st1 Hdown1 Hsp1)) as Hev.
  eapply eventually_impl; [|exact Hev].
  cbn beta. intros fuel [Hrun1 Hrun2]. fold st1 in Hrun1.
  exists st1, (moved second (dragged rect cx2 cy2 st1)).
  split; [exact Hrun1|]. split; [exact Hrun2|].
  set (st1' := dragged rect cx2 cy2 st1).
  destruct (moved_frame second st1') as (Hc2 & Hs2 & _ & _ & _ & _ & _ & Hw2 & _ & _ & Hp2).
  assert (Hcx : px (center st1') =
                (cx2 * ratio st - left rect) - ((cx0 * ratio st - left rect) - px (center st))).
  { subst st1'. unfold dragged. cbn [px center set_center refreshMousePoint
      set_mousePoint mousePoint mouseDX ratio]. rewrite Hdx1, Hr1. reflexivity. }
  assert (Hcy : py (center st1') =
                (cy2 * ratio st - top rect) - ((cy0 * ratio st - top rect) - py (center st))).
  { subst st1'. unfold dragged. cbn [py center set_center refreshMousePoint
      set_mousePoint mousePoint mouseDY ratio]. rewrite Hdy1, Hr1. reflexivity. }
  rewrite Hc2. split; [exact Hcx|]. split; [exact Hcy|].
  intros Hne.
  assert (Hne' : displayedPoints st1' <> []).
  { subst st1'. unfold dragged. simpl. rewrite Hp1. exact Hne. }
  unfold visibleBegin, visibleEnd. rewrite Hc2, Hs2, Hw2.
  unfold moved. destruct (displayedPoints st1') as [|p ps]; [congruence|].
  reflexivity.
Qed.

Lemma pan_requests_bounds (direction : MovingDirection) (st : Render) :
  0 < spacing st ->
  Forall (fun r => fst (pan_slice direction st) <= req_x r /\
                   req_x r <= snd (pan_slice direction st))
         (pan_requests direction st).
Proof.
  intros Hsp. unfold pan_requests. apply Forall_flat_map.
  apply Forall_forall. intros func _.
  destruct (requested_samples_slice (spacing st) func
              (fst (pan_slice direction st)) (snd (pan_slice direction st))
              direction Hsp) as [Hall _].
  eapply Forall_impl; [|exact Hall]. simpl. tauto.
Qed.

(** X11.  Two drag steps in the same direction keep the order of the
    requests.  Over a non-empty point stream, every abscissa asked for by
    the first step is at most (moving left) or at least (moving right)
    every abscissa asked for by the second: the second slice starts where
    the stored range of the first ended. *)
Theorem consecutive_pans_stay_in_order (rect : DOMRect) (cx1 cy1 cx2 cy2 : Q)
  (direction : MovingDirection) (st : Render) :
  camera_ok st -> mouseDown st = true -> displayedPoints st <> [] ->
  eventually (fun fuel => exists (st1 st2 : Render) (first second : list Request),
    handleMouseMove fuel rect cx1 cy1 direction st = Done st1 /\
    handleMouseMove fuel rect cx2 cy2 direction st1 = Done st2 /\
    posted st1 = posted st ++ first /\
    posted st2 = posted st1 ++ second /\
    forall a b : Request, In a first -> In b second ->
      match direction with
      | LEFT => req_x a <= req_x b
      | RIGHT => req_x b <= req_x a
      end).
Proof.
  intros [Hsp _] Hdown Hne.
  set (sta := dragged rect cx1 cy1 st).
  set (st1 := moved direction sta).
  destruct (moved_frame direction sta)
    as (_ & _ & Hg1 & _ & Hd1 & _ & _ & _ & _ & _ & Hp1).
  fold st1 in Hg1, Hd1, Hp1.
  assert (Hdown1 : mouseDown st1 = true) by (rewrite Hd1; exact Hdown).
  assert (Hsp1 : 0 < spacing st1) by (rewrite Hg1; exact Hsp).
  set (stb := dragged rect cx2 cy2 st1).
  assert (Hnea : displayedPoints sta <> []) by exact Hne.
  assert (Hneb : displayedPoints stb <> []).
  { subst stb. unfold dragged. simpl. rewrite Hp1. exact Hnea. }
  assert (Hcam : cameraPosition stb = (visibleBegin sta, visibleEnd sta)).
  { subst stb st1. unfold moved.
    change (displayedPoints sta) with (displayedPoints st).
    destruct (displayedPoints st); [congruence|reflexivity]. }
  pose proof (eventually_and _ _
    (handleMouseMove_dragging rect cx1 cy1 direction st Hdown Hsp)
    (handleMouseMove_dragging rect cx2 cy2 direction st1 Hdown1 Hsp1)) as Hev.
  eapply eventually_impl; [|exact Hev].
  simpl. intros fuel [Hrun1 Hrun2]. fold sta in Hrun1. fold st1 in Hrun1.
  fold stb in Hrun2.
  exists st1, (moved direction stb), (pan_requests direction sta),
         (pan_requests direction stb).
  split; [exact Hrun1|]. split; [exact Hrun2|].
  split.
  { subst st1. unfold moved. destruct (displayedPoints sta); [congruence|reflexivity]. }
  split.
  { unfold moved. destruct (displayedPoints stb); [congruence|reflexivity]. }
  intros a b Ha Hb.
  pose proof (pan_requests_bounds direction sta Hsp) as Hba.
  assert (Hspb : 0 < spacing stb) by exact Hsp1.
  pose proof (pan_requests_bounds direction stb Hspb) as Hbb.
  rewrite Forall_forall in Hba, Hbb.
  specialize (Hba a Ha). specialize (Hbb b Hb).
  destruct direction; unfold pan_slice in Hba, Hbb; rewrite Hcam in Hbb;
    simpl in Hba, Hbb; lra.
Qed.

(** ** Mouse up *)

(** X12.  [handleMouseUp] ends a gesture.  After it, whatever the fuel, a
    mouse move only records the cursor, and a pinch frame only records its
    two baselines: the centre, the scale, the point stream and the log of
    posted messages are as they were. *)
Theorem handleMouseUp_ends_the_gesture (fuel : nat) (rect : DOMRect)
  (cx cy cxB cyB : Q) (direction : MovingDirection) (st : Render) :
  (exists st' : Render,
     handleMouseMove fuel rect cx cy direction (handleMouseUp st) = Done st' /\
     mousePoint st' = createPoint (cx * ratio st - left rect) (cy * ratio st - top rect) /\
     center st' = center st /\ scale st' = scale st /\
     cameraPosition st' = cameraPosition st /\
     displayedPoints st' = displayedPoints st /\ posted st' = posted st) /\
  (exists st' : Render,
     handleTouchZoom fuel rect cx cy cxB cyB (handleMouseUp st) = Done st' /\
     lastZoomingSize st' =
       Some (pinchSize rect (cx * ratio st) (cy * ratio st)
                       (cxB * ratio st) (cyB * ratio st)) /\
     zoomingScale st' =
       Some (pinchSize rect (cx * ratio st) (cy * ratio st)
                       (cxB * ratio st) (cyB * ratio st) / scale st) /\
     center st' = center st /\ scale st' = scale st /\
     cameraPosition st' = cameraPosition st /\
     displayedPoints st' = displayedPoints st /\ posted st' = posted st).
Proof.
  split; eexists; (split; [reflexivity|]); repeat split.
Qed.

(** ** The wheel *)

Lemma wheeled_fields (dy : Q) (st : Render) :
  let s1 := if Qlt_bool 0 dy then scale st - 7 / spacing st
            else scale st + 7 / spacing st in
  scale (wheeled dy st) = s1 /\
  spacing (wheeled dy st) = spacing (scalingAdapt (set_scale s1 st)) /\
  mousePoint (wheeled dy st) = mousePoint st /\
  canvas_width (wheeled dy st) = canvas_width st /\
  functionList (wheeled dy st) = functionList st /\
  px (center (wheeled dy st)) =
    px (center st) +
    ((px (mousePoint st) - px (center st)) / s1 -
     (px (mousePoint st) - px (center st)) / scale st) * s1 /\
  py (center (wheeled dy st)) =
    py (center st) -
    (- (py (mousePoint st) - py (center st)) / s1 -
     - (py (mousePoint st) - py (center st)) / scale st) * s1 /\
  (displayedPoints st <> [] ->
   cameraPosition (wheeled dy st) =
     (- px (center st) / s1, (canvas_width st - px (center st)) / s1)).
Proof.
  intros s1. unfold wheeled.
  set (st1 := if Qlt_bool 0 dy then set_scale _ st else _).
  assert (Hst1 : st1 = set_scale s1 st).
  { subst st1 s1. now destruct (Qlt_bool 0 dy). }
  rewrite Hst1. clear Hst1 st1.
  set (zooming := if Qlt_bool 0 dy then ZOOM_OUT else ZOOM_IN).
  destruct (scalingAdapt_frame (set_scale s1 st))
    as (Hs & Hc & Hm & Hw & _ & Hf & Hd & _).
  destruct (zoomed_frame zooming (scalingAdapt (set_scale s1 st)))
    as (Hzc & Hzs & Hzg & Hzm & Hzw & Hzf).
  cbn [scale spacing mousePoint canvas_width functionList center set_center
       px py cameraPosition pointToCoordinates].
  rewrite Hzc, Hzs, Hzg, Hzm, Hzw, Hzf, Hs, Hc, Hm, Hw, Hf.
  cbn [scale center mousePoint canvas_width functionList set_scale].
  repeat split.
  intros Hne. unfold zoomed. rewrite Hd. cbn [displayedPoints set_scale].
  destruct (displayedPoints st); [congruence|].
  cbn [cameraPosition set_cameraPosition]. unfold visibleBegin, visibleEnd.
  rewrite Hs, Hc, Hw. reflexivity.
Qed.

Lemma Qdiv_cancel (a b c : Q) : ~ c == 0 -> a / c == b / c -> a == b.
Proof.
  intros Hc H.
  assert (Ha : a == a / c * c) by (field; assumption).
  assert (Hb : b == b / c * c) by (field; assumption).
  rewrite Ha, Hb, H. reflexivity.
Qed.

(** X14.  What a wheel step stores.  Over a non-empty point stream
    [handleWheel] stores the range before it moves the centre: the stored
    range is [[-c/s, (canvasWidth - c)/s]] for the old centre [c] and the new
    scale [s], and it is the range of the canvas afterwards exactly when the
    cursor is on the vertical line through the centre. *)
Theorem wheel_stores_range_of_old_centre (dy : Q) (st : Render) :
  camera_ok st -> displayedPoints st <> [] ->
  let s1 := if Qlt_bool 0 dy then scale st - 7 / spacing st
            else scale st + 7 / spacing st in
  ~ s1 == 0 ->
  eventually (fun fuel => exists st' : Render,
    handleWheel fuel dy st = Done st' /\
    cameraPosition st' =
      (- px (center st) / scale st', (canvas_width st - px (center st)) / scale st') /\
    (camera_invariant st' <-> px (mousePoint st) == px (center st))).
Proof.
  intros [Hsp Hs0] Hne s1 Hs1.
  eapply eventually_impl; [|apply (handleWheel_wheeled dy st Hsp)].
  simpl. intros fuel Hrun. exists (wheeled dy st). split; [exact Hrun|].
  destruct (wheeled_fields dy st) as (Hsc & _ & _ & Hw & _ & Hcx & _ & Hcam).
  fold s1 in Hsc, Hcx, Hcam. specialize (Hcam Hne).
  rewrite Hsc. split; [exact Hcam|].
  unfold camera_invariant, visibleBegin, visibleEnd.
  rewrite Hcam, Hsc, Hw, Hcx. cbn [fst snd].
  assert (Hdiff : ~ scale st - s1 == 0).
  { subst s1. destruct (Qlt_bool 0 dy); intros H.
    - assert (H7 : 7 / spacing st == 0) by lra.
      assert (H7' : 7 == 7 / spacing st * spacing st) by (field; lra).
      rewrite H7 in H7'. lra.
    - assert (H7 : 7 / spacing st == 0) by lra.
      assert (H7' : 7 == 7 / spacing st * spacing st) by (field; lra).
      rewrite H7 in H7'. lra. }
  destruct (center st) as [cx cy]. destruct (mousePoint st) as [mx my].
  cbn [px py] in *. clearbody s1. split.
  - intros [Hb _]. apply Qdiv_cancel in Hb; [|assumption].
    assert (Hprod : (mx - cx) * (scale st - s1) == 0).
    { assert (Hz : ((mx - cx) / s1 - (mx - cx) / scale st) * s1 == 0) by lra.
      assert (Heq : (mx - cx) * (scale st - s1) ==
                    ((mx - cx) / s1 - (mx - cx) / scale st) * s1 * scale st)
        by (field; split; assumption).
      rewrite Heq, Hz. ring. }
    apply Qmult_integral in Hprod. destruct Hprod as [H|H]; [lra|contradiction].
  - intros Hm. rewrite Hm.
    split; (apply Qeq_refl || (field_simplify_eq; [ring|split; assumption])).
Qed.

(** ** Pinching *)

Lemma Qdiv_nonzero (a b : Q) : ~ a == 0 -> ~ b == 0 -> ~ a / b == 0.
Proof.
  intros Ha Hb H. apply Ha.
  assert (Heq : a == a / b * b) by (field; assumption).
  rewrite Heq, H. ring.
Qed.

(** X15.  A pinch sets the scale from the distance of the fingers.  The
    first frame of a pinch (after [handleMouseUp]) leaves the scale alone
    and records the distance of the fingers divided by the scale; the
    second frame ends with the scale equal to its own distance divided by
    that record, [size2 / (size1 / scale)], and with its distance recorded
    as the last one.  The grid unit is positive, and the scale and the two
    distances are non-zero. *)
Theorem pinch_scales_with_the_fingers (rect : DOMRect)
  (ax1 ay1 bx1 by1 ax2 ay2 bx2 by2 : Q) (st : Render) :
  camera_ok st ->
  let size1 := pinchSize rect (ax1 * ratio st) (ay1 * ratio st)
                         (bx1 * ratio st) (by1 * ratio st) in
  let size2 := pinchSize rect (ax2 * ratio st) (ay2 * ratio st)
                         (bx2 * ratio st) (by2 * ratio st) in
  ~ size1 == 0 -> ~ size2 == 0 ->
  eventually (fun fuel => exists st1 st2 : Render,
    handleTouchZoom fuel rect ax1 ay1 bx1 by1 (handleMouseUp st) = Done st1 /\
    scale st1 = scale st /\
    zoomingScale st1 = Some (size1 / scale st) /\
    handleTouchZoom fuel rect ax2 ay2 bx2 by2 st1 = Done st2 /\
    scale st2 = size2 / (size1 / scale st) /\
    lastZoomingSize st2 = Some size2).
Proof.
  intros [Hsp Hs0] size1 size2 Hsize Hsize2.
  set (st1 := set_zoomingScale (Some (size1 / scale st))
                (set_lastZoomingSize (Some size1) (handleMouseUp st))).
  assert (Ht1 : Qeq_bool size1 0 = false) by now apply Qeq_bool_false.
  assert (Ht2 : Qeq_bool (size1 / scale st) 0 = false).
  { apply Qeq_bool_false. now apply Qdiv_nonzero. }
  set (stb := scalingAdapt (set_scale (size2 / (size1 / scale st)) st1)).
  set (zooming := if Qlt_bool size2 size1 then ZOOM_OUT else ZOOM_IN).
  assert (Hrun2 : forall fuel,
            handleTouchZoom fuel rect ax2 ay2 bx2 by2 st1 =
            (st' <- zoomFunctionImage fuel zooming stb ;;
             Done (set_lastZoomingSize (Some size2) st'))).
  { intros fuel. unfold handleTouchZoom.
    change (ratio st1) with (ratio st). fold size2.
    change (lastZoomingSize st1) with (Some size1).
    cbn [truthy negb]. rewrite Ht1. cbn [negb].
    change (zoomingScale st1) with (Some (size1 / scale st)).
    cbn [truthy]. rewrite Ht2. cbn [negb]. fold stb.
    assert (Hl : lastZoomingSize stb = Some size1).
    { subst stb. unfold scalingAdapt.
      repeat match goal with |- context [if ?b then _ else _] => destruct b end;
        reflexivity. }
    rewrite Hl. cbn [truthy]. rewrite Ht1. cbn [negb andb]. reflexivity. }
  assert (Hspb : 0 < spacing stb).
  { subst stb. apply scalingAdapt_spacing_pos. exact Hsp. }
  eapply eventually_impl; [|apply (zoomFunctionImage_zoomed zooming stb Hspb)].
  cbn beta. intros fuel Hzoom. exists st1. eexists.
  split; [reflexivity|]. split; [reflexivity|]. split; [reflexivity|].
  rewrite Hrun2, Hzoom. cbn [bind]. split; [reflexivity|].
  cbn [scale lastZoomingSize set_lastZoomingSize].
  destruct (zoomed_frame zooming stb) as (_ & Hs & _).
  rewrite Hs. subst stb.
  destruct (scalingAdapt_frame (set_scale (size2 / (size1 / scale st)) st1)) as (Hs' & _).
  rewrite Hs'. cbn [scale set_scale]. split; reflexivity.
Qed.

(** ** What the handlers keep, whatever the fuel *)

Lemma forEach_posts (body : Function -> Render -> outcome Render)
  (l : list Function) (st st' : Render) :
  (forall func s s', body func s = Done s' -> exists reqs, s' = postAll reqs s) ->
  forEach body l st = Done st' -> exists reqs, st' = postAll reqs st.
Proof.
  intros Hbody. revert st. induction l as [|func l IH]; intros st; simpl.
  - intros H. injection H as <-. exists []. now rewrite postAll_nil.
  - destruct (body func st) as [s| |] eqn:E; simpl; try discriminate.
    intros H. apply Hbody in E. destruct E as (r1 & ->).
    apply IH in H. destruct H as (r2 & ->).
    exists (r1 ++ r2). now rewrite postAll_app.
Qed.

Lemma forEach_no_TypeError (body : Function -> Render -> outcome Render)
  (l : list Function) (st : Render) :
  (forall func s, body func s <> TypeError) -> forEach body l st <> TypeError.
Proof.
  intros Hbody. revert st. induction l as [|func l IH]; intros st; simpl.
  - discriminate.
  - destruct (body func st) as [s| |] eqn:E; simpl; try discriminate.
    + apply IH.
    + now apply Hbody in E.
Qed.

Lemma calculatePoints_posts_only (fuel : nat) (func : Function) (b e : Q)
  (direction : MovingDirection) (s s' : Render) :
  calculatePoints fuel func b e direction s = Done s' ->
  exists reqs, s' = postAll reqs s.
Proof.
  intros H. apply calculatePoints_posts in H. destruct H as (reqs & -> & _).
  now exists reqs.
Qed.

Lemma edges_post_only (fuel : nat) (b1 e1 b2 e2 : Q) (func : Function) (s s' : Render) :
  (st1 <- calculatePoints fuel func b1 e1 RIGHT s ;;
   calculatePoints fuel func b2 e2 LEFT st1) = Done s' ->
  exists reqs, s' = postAll reqs s.
Proof.
  destruct (calculatePoints fuel func b1 e1 RIGHT s) as [s1| |] eqn:E; simpl;
    try discriminate.
  intros H. apply calculatePoints_posts_only in E, H.
  destruct E as (r1 & ->). destruct H as (r2 & ->).
  exists (r1 ++ r2). now rewrite postAll_app.
Qed.

Lemma edges_no_TypeError (fuel : nat) (b1 e1 b2 e2 : Q) (func : Function) (s : Render) :
  (st1 <- calculatePoints fuel func b1 e1 RIGHT s ;;
   calculatePoints fuel func b2 e2 LEFT st1) <> TypeError.
Proof.
  destruct (calculatePoints fuel func b1 e1 RIGHT s) as [s1| |] eqn:E; simpl;
    try discriminate.
  - apply calculatePoints_no_TypeError.
  - now apply calculatePoints_no_TypeError in E.
Qed.

Lemma only_resamples_refl (st : Render) : only_resamples st st.
Proof.
  exists [], (displayedPoints st), (cameraPosition st).
  rewrite postAll_nil. destruct st. reflexivity.
Qed.

Lemma moveFunctionImage_resamples (fuel : nat) (direction : MovingDirection)
  (st st' : Render) :
  moveFunctionImage fuel direction st = Done st' -> only_resamples st st'.
Proof.
  unfold moveFunctionImage. destruct (displayedPoints st) as [|p ps] eqn:Hd.
  - intros H. injection H as <-. apply only_resamples_refl.
  - destruct direction; simpl;
      match goal with
      | |- context [forEach ?b ?l ?s] => destruct (forEach b l s) as [s1| |] eqn:E
      end; simpl; try discriminate; intros H; injection H as <-;
      (apply forEach_posts in E;
       [|intros func s s'; apply calculatePoints_posts_only]);
      destruct E as (reqs & ->);
      exists reqs, (displayedPoints st); eexists;
      rewrite set_displayedPoints_same; reflexivity.
Qed.

Lemma zoomFunctionImage_resamples (fuel : nat) (direction : ZoomDirection)
  (st st' : Render) :
  zoomFunctionImage fuel direction st = Done st' -> only_resamples st st'.
Proof.
  unfold zoomFunctionImage. destruct (displayedPoints st) as [|p ps] eqn:Hd.
  - intros H. injection H as <-. apply only_resamples_refl.
  - destruct direction; simpl;
      match goal with
      | |- context [forEach ?b ?l ?s] => destruct (forEach b l s) as [s1| |] eqn:E
      end; simpl; try discriminate; intros H; injection H as <-.
    + apply forEach_posts in E; [|intros func s s'; apply calculatePoints_posts_only].
      destruct E as (reqs & ->). exists reqs, []. eexists. reflexivity.
    + apply forEach_posts in E; [|intros func s s'; apply edges_post_only].
      destruct E as (reqs & ->). exists reqs, (displayedPoints st). eexists.
      rewrite set_displayedPoints_same. reflexivity.
Qed.

Lemma moveFunctionImage_no_TypeError (fuel : nat) (direction : MovingDirection)
  (st : Render) : moveFunctionImage fuel direction st <> TypeError.
Proof.
  unfold moveFunctionImage. destruct (displayedPoints st); [discriminate|].
  destruct direction; simpl;
    match goal with
    | |- context [forEach ?b ?l ?s] => destruct (forEach b l s) as [s1| |] eqn:E
    end; simpl; try discriminate;
    apply forEach_no_TypeError in E; [contradiction| |contradiction|];
    intros; apply calculatePoints_no_TypeError.
Qed.

Lemma zoomFunctionImage_no_TypeError (fuel : nat) (direction : ZoomDirection)
  (st : Render) : zoomFunctionImage fuel direction st <> TypeError.
Proof.
  unfold zoomFunctionImage. destruct (displayedPoints st); [discriminate|].
  destruct direction; simpl;
    match goal with
    | |- context [forEach ?b ?l ?s] => destruct (forEach b l s) as [s1| |] eqn:E
    end; simpl; try discriminate;
    apply forEach_no_TypeError in E; try contradiction; intros.
  - apply calculatePoints_no_TypeError.
  - apply edges_no_TypeError.
Qed.

Lemma only_resamples_frame (st st' : Render) :
  only_resamples st st' ->
  center st' = center st /\ scale st' = scale st /\ spacing st' = spacing st /\
  mousePoint st' = mousePoint st /\ functionList st' = functionList st /\
  canvas_width st' = canvas_width st /\ ratio st' = ratio st /\
  mouseDown st' = mouseDown st /\ zoomingScale st' = zoomingScale st /\
  lastZoomingSize st' = lastZoomingSize st.
Proof. intros (reqs & points & range & ->). repeat split. Qed.

(** X16.  What the handlers of the view keep, whatever the fuel.  None of
    [handleMouseMove], [handleWheel] and [handleTouchZoom] throws; when one
    returns, the function list is the one it found; a mouse move keeps the
    scale and the grid unit, and after a wheel step or a pinch frame the grid
    unit is still positive. *)
Theorem view_handlers_keep_functions_and_grid (fuel : nat) (rect : DOMRect)
  (cx cy cxB cyB dy : Q) (direction : MovingDirection) (st : Render) :
  0 < spacing st ->
  match handleMouseMove fuel rect cx cy direction st with
  | Done st' =>
      functionList st' = functionList st /\
      scale st' = scale st /\ spacing st' = spacing st
  | TypeError => False
  | Diverges => True
  end /\
  match handleWheel fuel dy st with
  | Done st' => functionList st' = functionList st /\ 0 < spacing st'
  | TypeError => False
  | Diverges => True
  end /\
  match handleTouchZoom fuel rect cx cy cxB cyB st with
  | Done st' => functionList st' = functionList st /\ 0 < spacing st'
  | TypeError => False
  | Diverges => True
  end.
Proof.
  intros Hsp. split; [|split].
  - unfold handleMouseMove. cbn [mouseDown refreshMousePoint set_mousePoint].
    destruct (mouseDown st); cbn [negb]; [|repeat split].
    match goal with
    | |- context [moveFunctionImage ?f ?d ?s] =>
        destruct (moveFunctionImage f d s) as [st'| |] eqn:E
    end; [|now apply moveFunctionImage_no_TypeError in E|exact I].
    apply moveFunctionImage_resamples, only_resamples_frame in E.
    destruct E as (_ & Hs & Hg & _ & Hf & _). rewrite Hs, Hg, Hf. repeat split.
  - unfold handleWheel.
    set (st1 := if Qlt_bool 0 dy then set_scale _ st else _).
    assert (H1 : functionList st1 = functionList st /\ spacing st1 = spacing st).
    { subst st1. destruct (Qlt_bool 0 dy); split; reflexivity. }
    destruct H1 as [Hf1 Hg1].
    destruct (scalingAdapt_frame st1) as (_ & _ & _ & _ & _ & Hf2 & _).
    assert (Hsp2 : 0 < spacing (scalingAdapt st1)).
    { apply scalingAdapt_spacing_pos. now rewrite Hg1. }
    match goal with
    | |- context [zoomFunctionImage ?f ?d ?s] =>
        destruct (zoomFunctionImage f d s) as [st'| |] eqn:E
    end; cbn [bind]; [|now apply zoomFunctionImage_no_TypeError in E|exact I].
    apply zoomFunctionImage_resamples, only_resamples_frame in E.
    destruct E as (_ & _ & Hg & _ & Hf & _).
    cbn [functionList spacing set_center]. rewrite Hf, Hg, Hf2, Hf1.
    split; [reflexivity|exact Hsp2].
  - unfold handleTouchZoom.
    set (size := pinchSize _ _ _ _ _).
    set (st1 := if negb (truthy (lastZoomingSize st)) then _ else st).
    assert (H1 : functionList st1 = functionList st /\ spacing st1 = spacing st /\
                 zoomingScale st1 = zoomingScale st /\ scale st1 = scale st).
    { subst st1. destruct (negb (truthy (lastZoomingSize st))); repeat split. }
    destruct H1 as (Hf1 & Hg1 & Hz1 & Hs1). rewrite Hz1.
    assert (Hbase : forall v,
              functionList (set_zoomingScale v st1) = functionList st /\
              0 < spacing (set_zoomingScale v st1)).
    { intros v. simpl. rewrite Hf1, Hg1. split; [reflexivity|exact Hsp]. }
    destruct (zoomingScale st) as [zs|]; [|apply Hbase].
    destruct (truthy (Some zs)); [|apply Hbase].
    set (st2 := scalingAdapt (set_scale (size / zs) st1)).
    destruct (scalingAdapt_frame (set_scale (size / zs) st1))
      as (_ & _ & _ & _ & _ & Hf2 & _).
    assert (Hsp2 : 0 < spacing st2).
    { subst st2. apply scalingAdapt_spacing_pos. simpl. now rewrite Hg1. }
    match goal with
    | |- context [zoomFunctionImage ?f ?d ?s] =>
        destruct (zoomFunctionImage f d s) as [st'| |] eqn:E
    end; cbn [bind]; [|now apply zoomFunctionImage_no_TypeError in E|exact I].
    apply zoomFunctionImage_resamples, only_resamples_frame in E.
    destruct E as (_ & _ & Hg & _ & Hf & _).
    cbn [functionList spacing set_lastZoomingSize]. rewrite Hf, Hg.
    subst st2. rewrite Hf2. simpl. rewrite Hf1. split; [reflexivity|exact Hsp2].
Qed.

(** ** The grid unit *)

(** X17.  When one [scalingAdapt] is enough.  If the product [scale *
    spacing] is within the band, or below it by less than the factor the
    grid unit grows by (2, or 5/2 from a unit of 2), or above it by less
    than the factor it shrinks by (2, or 5/2 from a unit of 5), then after
    one call the product is strictly between 66 and 138 and a second call
    changes nothing. *)
Theorem scalingAdapt_settles_in_one_call (st : Render) :
  (66 < scale st * spacing st /\ scale st * spacing st < 138) \/
  (~ spacing st == 2 /\ 33 < scale st * spacing st /\ scale st * spacing st <= 66) \/
  (spacing st == 2 /\ 132 # 5 < scale st * spacing st /\
   scale st * spacing st < 276 # 5) \/
  (~ spacing st == 5 /\ 138 <= scale st * spacing st /\ scale st * spacing st < 276) \/
  (spacing st == 5 /\ 165 < scale st * spacing st /\ scale st * spacing st < 345) ->
  66 < scale (scalingAdapt st) * spacing (scalingAdapt st) /\
  scale (scalingAdapt st) * spacing (scalingAdapt st) < 138 /\
  scalingAdapt (scalingAdapt st) = scalingAdapt st.
Proof.
  intros H.
  assert (Hband : forall st0 : Render,
            66 < scale st0 * spacing st0 -> scale st0 * spacing st0 < 138 ->
            66 < scale st0 * spacing st0 /\ scale st0 * spacing st0 < 138 /\
            scalingAdapt st0 = st0).
  { intros st0 Hlo Hhi. repeat split; try assumption.
    apply scalingAdapt_between; lra. }
  destruct H as [[Hlo Hhi]|[(H2 & Hlo & Hhi)|[(H2 & Hlo & Hhi)|[(H5 & Hlo & Hhi)|(H5 & Hlo & Hhi)]]]].
  - rewrite scalingAdapt_between by lra. now apply Hband.
  - rewrite (scalingAdapt_low st Hhi), (Qeq_bool_false _ _ H2).
    apply Hband; cbn [scale spacing set_spacing]; lra.
  - assert (Hle : scale st * spacing st <= 66) by lra.
    rewrite (scalingAdapt_low st Hle).
    apply Qeq_bool_iff in H2 as Hb. rewrite Hb.
    rewrite H2 in Hlo, Hhi. apply Hband; cbn [scale spacing set_spacing]; lra.
  - rewrite (scalingAdapt_high st Hlo), (Qeq_bool_false _ _ H5).
    assert (Hhalf : scale st * (spacing st / 2) == scale st * spacing st * (1 # 2))
      by field.
    apply Hband; cbn [scale spacing set_spacing]; rewrite Hhalf; lra.
  - assert (Hge : 138 <= scale st * spacing st) by lra.
    rewrite (scalingAdapt_high st Hge).
    apply Qeq_bool_iff in H5 as Hb. rewrite Hb.
    rewrite H5 in Hlo, Hhi. apply Hband; cbn [scale spacing set_spacing]; lra.
Qed.

(** X18.  Where [scalingAdapt] never settles.  From a grid unit of 2 with
    the product between 55.2 and 66, or a grid unit of 5 with the product
    between 138 and 165, each call undoes the one before: the grid unit
    alternates between 2 and 5, the scale being left alone. *)
Theorem scalingAdapt_alternates_between_2_and_5 (st : Render) :
  (spacing st == 2 /\ 276 # 5 <= scale st * spacing st /\
   scale st * spacing st <= 66 ->
   spacing (scalingAdapt st) == 5 /\
   spacing (scalingAdapt (scalingAdapt st)) == 2 /\
   spacing (scalingAdapt (scalingAdapt (scalingAdapt st))) == 5) /\
  (spacing st == 5 /\ 138 <= scale st * spacing st /\
   scale st * spacing st <= 165 ->
   spacing (scalingAdapt st) == 2 /\
   spacing (scalingAdapt (scalingAdapt st)) == 5 /\
   spacing (scalingAdapt (scalingAdapt (scalingAdapt st))) == 2).
Proof.
  assert (Hup : forall st0 : Render,
            spacing st0 == 2 -> scale st0 * spacing st0 <= 66 ->
            scalingAdapt st0 = set_spacing 5 st0).
  { intros st0 H2 Hle. rewrite (scalingAdapt_low st0 Hle).
    apply Qeq_bool_iff in H2. now rewrite H2. }
  assert (Hdown : forall st0 : Render,
            spacing st0 == 5 -> 138 <= scale st0 * spacing st0 ->
            scalingAdapt st0 = set_spacing 2 st0).
  { intros st0 H5 Hge. rewrite (scalingAdapt_high st0 Hge).
    apply Qeq_bool_iff in H5. now rewrite H5. }
  split.
  - intros (H2 & Hlo & Hhi). rewrite H2 in Hlo, Hhi.
    rewrite (Hup st H2) by (rewrite H2; lra).
    rewrite (Hdown (set_spacing 5 st)) by (cbn [scale spacing set_spacing]; lra || reflexivity).
    rewrite (Hup (set_spacing 2 (set_spacing 5 st))) by (cbn [scale spacing set_spacing]; lra || reflexivity).
    repeat split; reflexivity.
  - intros (H5 & Hlo & Hhi). rewrite H5 in Hlo, Hhi.
    rewrite (Hdown st H5) by (rewrite H5; lra).
    rewrite (Hup (set_spacing 2 st)) by (cbn [scale spacing set_spacing]; lra || reflexivity).
    rewrite (Hdown (set_spacing 5 (set_spacing 2 st))) by (cbn [scale spacing set_spacing]; lra || reflexivity).
    repeat split; reflexivity.
Qed.

(** ** Nothing shown, nothing asked *)

Lemma handlers_on_empty_stream (fuel : nat) (rect : DOMRect)
  (cx cy cxB cyB dy : Q) (direction : MovingDirection) (st : Render) :
  displayedPoints st = [] ->
  (exists st', handleMouseMove fuel rect cx cy direction st = Done st' /\
               posted st' = posted st /\ displayedPoints st' = [] /\
               functionList st' = functionList st /\
               cameraPosition st' = cameraPosition st) /\
  (exists st', handleWheel fuel dy st = Done st' /\
               posted st' = posted st /\ displayedPoints st' = [] /\
               functionList st' = functionList st /\
               cameraPosition st' = cameraPosition st) /\
  (exists st', handleTouchZoom fuel rect cx cy cxB cyB st = Done st' /\
               posted st' = posted st /\ displayedPoints st' = [] /\
               functionList st' = functionList st /\
               cameraPosition st' = cameraPosition st).
Proof.
  intros Hd. split; [|split].
  - unfold handleMouseMove. cbn [mouseDown refreshMousePoint set_mousePoint].
    destruct (mouseDown st); cbn [negb].
    + rewrite moveFunctionImage_empty by exact Hd.
      eexists. split; [reflexivity|]. repeat split. exact Hd.
    + eexists. split; [reflexivity|]. repeat split. exact Hd.
  - unfold handleWheel.
    set (st1 := if Qlt_bool 0 dy then set_scale _ st else _).
    assert (H1 : posted st1 = posted st /\ displayedPoints st1 = [] /\
                 functionList st1 = functionList st /\
                 cameraPosition st1 = cameraPosition st).
    { subst st1. destruct (Qlt_bool 0 dy); repeat split; exact Hd. }
    destruct H1 as (Hp1 & Hd1 & Hf1 & Hc1).
    destruct (scalingAdapt_frame st1) as (_ & _ & _ & _ & Hc2 & Hf2 & Hd2 & Hp2).
    rewrite zoomFunctionImage_empty by (rewrite Hd2; exact Hd1).
    eexists. split; [reflexivity|]. simpl.
    rewrite Hp2, Hd2, Hf2, Hc2, Hp1, Hd1, Hf1, Hc1. repeat split.
  - unfold handleTouchZoom.
    set (size := pinchSize _ _ _ _ _).
    set (st1 := if negb (truthy (lastZoomingSize st)) then _ else st).
    assert (H1 : posted st1 = posted st /\ displayedPoints st1 = [] /\
                 functionList st1 = functionList st /\
                 cameraPosition st1 = cameraPosition st /\
                 zoomingScale st1 = zoomingScale st).
    { subst st1. destruct (negb (truthy (lastZoomingSize st))); repeat split; exact Hd. }
    destruct H1 as (Hp1 & Hd1 & Hf1 & Hc1 & Hz1). rewrite Hz1.
    assert (Hbase : forall v, exists st',
              Done (set_zoomingScale v st1) = Done st' /\
              posted st' = posted st /\ displayedPoints st' = [] /\
              functionList st' = functionList st /\
              cameraPosition st' = cameraPosition st).
    { intros v. eexists. split; [reflexivity|]. simpl.
      rewrite Hp1, Hd1, Hf1, Hc1. repeat split. }
    destruct (zoomingScale st) as [zs|]; [|apply Hbase].
    destruct (truthy (Some zs)); [|apply Hbase].
    destruct (scalingAdapt_frame (set_scale (size / zs) st1))
      as (_ & _ & _ & _ & Hc2 & Hf2 & Hd2 & Hp2).
    rewrite zoomFunctionImage_empty by (rewrite Hd2; exact Hd1).
    eexists. split; [reflexivity|]. simpl.
    rewrite Hp2, Hd2, Hf2, Hc2. simpl. rewrite Hp1, Hd1, Hf1, Hc1. repeat split.
Qed.

(** X19.  Nothing shown, nothing asked.  With an empty point stream none of
    [handleMouseMove], [handleWheel] and [handleTouchZoom] posts a request
    or rewrites the stored range, whatever the fuel and whatever functions
    are registered: each returns with the stream still empty. *)
Theorem handlers_ask_nothing_on_empty_stream (fuel : nat) (rect : DOMRect)
  (cx cy cxB cyB dy : Q) (direction : MovingDirection) (st : Render) :
  displayedPoints st = [] ->
  (exists st', handleMouseMove fuel rect cx cy direction st = Done st' /\
               posted st' = posted st /\ displayedPoints st' = [] /\
               functionList st' = functionList st /\
               cameraPosition st' = cameraPosition st) /\
  (exists st', handleWheel fuel dy st = Done st' /\
               posted st' = posted st /\ displayedPoints st' = [] /\
               functionList st' = functionList st /\
               cameraPosition st' = cameraPosition st) /\
  (exists st', handleTouchZoom fuel rect cx cy cxB cyB st = Done st' /\
               posted st' = posted st /\ displayedPoints st' = [] /\
               functionList st' = functionList st /\
               cameraPosition st' = cameraPosition st).
Proof. apply handlers_on_empty_stream. Qed.

(** X20.  [unregisterAllFunctions] returns whatever the fuel, with the
    renderer [reset] leaves: no function, no point, nothing posted, the
    camera as it was.  From there on the handlers of the view post nothing,
    however far the view is moved or zoomed. *)
Theorem unregisterAllFunctions_silences_the_view (fuel : nat) (st : Render) :
  unregisterAllFunctions fuel st = Done (reset st) /\
  functionList (reset st) = [] /\ displayedPoints (reset st) = [] /\
  posted (reset st) = posted st /\
  center (reset st) = center st /\ scale (reset st) = scale st /\
  cameraPosition (reset st) = cameraPosition st /\
  forall (fuel' : nat) (rect : DOMRect) (cx cy cxB cyB dy : Q)
         (direction : MovingDirection),
    (exists st', handleMouseMove fuel' rect cx cy direction (reset st) = Done st' /\
                 posted st' = posted st /\ functionList st' = [] /\
                 displayedPoints st' = []) /\
    (exists st', handleWheel fuel' dy (reset st) = Done st' /\
                 posted st' = posted st /\ functionList st' = [] /\
                 displayedPoints st' = []) /\
    (exists st', handleTouchZoom fuel' rect cx cy cxB cyB (reset st) = Done st' /\
                 posted st' = posted st /\ functionList st' = [] /\
                 displayedPoints st' = []).
Proof.
  repeat (split; [reflexivity|]).
  intros fuel' rect cx cy cxB cyB dy direction.
  destruct (handlers_on_empty_stream fuel' rect cx cy cxB cyB dy direction
              (reset st) eq_refl)
    as ((s1 & H1 & Hp1 & Hd1 & Hf1 & _) & (s2 & H2 & Hp2 & Hd2 & Hf2 & _)
        & (s3 & H3 & Hp3 & Hd3 & Hf3 & _)).
  split; [|split]; eexists; (split; [eassumption|]); repeat split; assumption.
Qed.

Lemma List_remove_length {A : Type} (l : list A) (index : nat) :
  (index < List.length l)%nat ->
  S (List.length (List_remove l index)) = List.length l.
Proof.
  revert index. induction l as [|h t IH]; intros [|n] Hlt; simpl in *;
    try lia. rewrite IH; lia.
Qed.

Lemma List_remove_before {A : Type} (l : list A) (index i : nat) :
  (i < index)%nat -> List_get (List_remove l index) i = List_get l i.
Proof.
  unfold List_get. revert index i. induction l as [|h t IH]; intros index i Hlt.
  - destruct index, i; reflexivity.
  - destruct index as [|n]; [lia|].
    destruct i as [|i]; [reflexivity|]. simpl. apply IH. lia.
Qed.

Lemma List_remove_after {A : Type} (l : list A) (index i : nat) :
  (index <= i)%nat -> List_get (List_remove l index) i = List_get l (S i).
Proof.
  unfold List_get. revert index i. induction l as [|h t IH]; intros index i Hle.
  - destruct index, i; reflexivity.
  - destruct index as [|n]; [reflexivity|].
    destruct i as [|i]; [lia|]. simpl. apply IH. lia.
Qed.

(** X21.  [unregisterFunction] at a position the list holds returns (the
    grid unit positive, the scale non-zero) with that function taken out,
    the others in their order, the point stream empty and the stored range
    as it was; it posts one batch for each function that is left, in turn,
    and nothing else: the batch over the visible range
    [[-center.x/scale, (canvasWidth - center.x)/scale]], in increasing x with
    [operate = "add"], the run of the loop from the left edge of the range
    by steps of [delta * spacing].  For a POLAR function the batch begins at
    0 when the range begins below 0 and is empty when the range ends below
    0: only the non-negative part of the range is resampled. *)
Theorem unregisterFunction_drops_and_resamples (index : nat) (st : Render) :
  (index < List.length (functionList st))%nat -> camera_ok st ->
  eventually (fun fuel => exists (st' : Render) (batches : list (list Request)),
    unregisterFunction fuel index st = Done st' /\
    S (List.length (functionList st')) = List.length (functionList st) /\
    (forall i, (i < index)%nat ->
       List_get (functionList st') i = List_get (functionList st) i) /\
    (forall i, (index <= i)%nat ->
       List_get (functionList st') i = List_get (functionList st) (S i)) /\
    displayedPoints st' = [] /\
    cameraPosition st' = cameraPosition st /\
    posted st' = posted st ++ List.concat batches /\
    Forall2 (fun func batch =>
               batch_over (delta * spacing st) func
                 (visibleBegin st) (visibleEnd st) LEFT batch)
            (functionList st') batches).
Proof.
  intros Hlt [Hsp _].
  set (st1 := set_functionList (List_remove (functionList st) index) st).
  assert (Hsp1 : 0 < spacing st1) by exact Hsp.
  eapply eventually_impl; [|apply (fullyRefreshFunctions_eventually st1 Hsp1)].
  cbn beta. intros fuel Hrun. unfold unregisterFunction. fold st1. rewrite Hrun.
  eexists.
  exists (map (fun func =>
                 requested (spacing st) func (visibleBegin st) (visibleEnd st) LEFT)
              (functionList st1)).
  split; [reflexivity|].
  cbn [functionList displayedPoints posted cameraPosition postAll set_posted
       set_displayedPoints].
  split; [now apply List_remove_length|].
  split; [intros i Hi; now apply List_remove_before|].
  split; [intros i Hi; now apply List_remove_after|].
  split; [reflexivity|]. split; [reflexivity|]. split.
  - unfold refresh_requests. now rewrite flat_map_concat_map.
  - apply Forall2_map_r. intros func. now apply requested_batch_over.
Qed.

(** ** The camera under the messages of the worker *)

(** X22.  No message of the calculation worker moves the camera.  Whatever
    its type and whatever the fuel, when the handler returns, the centre,
    the scale, the grid unit, the width of the canvas and the stored range
    are those it found; so the camera invariant, if it held, still holds. *)
Theorem worker_messages_leave_the_camera (fuel : nat) (res : Response) (st : Render) :
  match handleCalculatingWorkerMessaging fuel res st with
  | Done st' =>
      center st' = center st /\ scale st' = scale st /\
      spacing st' = spacing st /\ canvas_width st' = canvas_width st /\
      cameraPosition st' = cameraPosition st /\
      (camera_invariant st -> camera_invariant st')
  | TypeError | Diverges => True
  end.
Proof.
  assert (Hkeep : forall st' : Render,
            center st' = center st -> scale st' = scale st ->
            spacing st' = spacing st -> canvas_width st' = canvas_width st ->
            cameraPosition st' = cameraPosition st ->
            center st' = center st /\ scale st' = scale st /\
            spacing st' = spacing st /\ canvas_width st' = canvas_width st /\
            cameraPosition st' = cameraPosition st /\
            (camera_invariant st -> camera_invariant st')).
  { intros st' Hc Hs Hg Hw Hcam. repeat split; try assumption;
      unfold camera_invariant, visibleBegin, visibleEnd in *;
      rewrite Hcam, Hc, Hs, ?Hw; tauto. }
  unfold handleCalculatingWorkerMessaging.
  destruct (String.eqb (res_type res) "compile").
  { unfold drawCompleteFunction.
    match goal with |- context [List_getLast ?l] => destruct (List_getLast l) end;
      [|exact I].
    match goal with
    | |- context [calculatePoints ?f ?fn ?b ?e ?d ?s] =>
        destruct (calculatePoints f fn b e d s) as [st'| |] eqn:E
    end; try exact I.
    apply calculatePoints_posts_only in E. destruct E as (reqs & ->).
    apply Hkeep; reflexivity. }
  destruct (String.eqb (res_type res) "compile-and-set").
  { destruct (List_get (functionList st) (res_index res)); [|exact I].
    unfold fullyRefreshFunctions.
    match goal with
    | |- context [forEach ?b ?l ?s] => destruct (forEach b l s) as [st'| |] eqn:E
    end; try exact I.
    apply forEach_posts in E; [|intros func s s'; apply calculatePoints_posts_only].
    destruct E as (reqs & ->). apply Hkeep; reflexivity. }
  destruct (String.eqb (res_type res) "evaluate").
  { destruct (String.eqb (res_operate res) "add"); [apply Hkeep; reflexivity|].
    destruct (String.eqb (res_operate res) "unshift"); apply Hkeep; reflexivity. }
  apply Hkeep; reflexivity.
Qed.

(** ** The constructor *)

(** X23.  A new renderer satisfies the camera invariant, its visible range
    is centred on 0 and [canvasWidth / scale] wide, and it has no function,
    no point and nothing posted; the scale is taken non-zero. *)
Theorem newRender_is_centred (width height ratio0 scale0 spacing0 : Q)
  (cursor : Point) :
  ~ scale0 == 0 ->
  let st := newRender width height ratio0 scale0 spacing0 cursor in
  camera_invariant st /\
  fst (cameraPosition st) == - snd (cameraPosition st) /\
  snd (cameraPosition st) - fst (cameraPosition st) == width / scale0 /\
  functionList st = [] /\ displayedPoints st = [] /\ posted st = [].
Proof.
  intros Hs st. unfold camera_invariant, visibleBegin, visibleEnd. simpl.
  repeat split; try reflexivity; field; assumption.
Qed.

End Methods.

(** * The further properties on the example renderers *)

(** X2 on a grid unit of 0: the loop over [[0, 1]] never ends. *)
Lemma calculatePoints_hangs_without_step_witness :
  spacing gridless <= 0 /\ 0 <= 0 /\ 0 <= 1 /\
  calculatePoints 1000 parabola 0 1 LEFT gridless = Diverges.
Proof.
  assert (H1 : spacing gridless <= 0) by discriminate.
  assert (H2 : 0 <= 0) by discriminate.
  assert (H3 : 0 <= 1) by discriminate.
  repeat (split; [assumption|]).
  exact (calculatePoints_hangs_without_step 1000 parabola 0 1 LEFT gridless H1 H2 H3).
Defined.

(** X3 on the range [[-2, 3]] with samples one unit apart: the batch
    begins at -2. *)
Lemma calculatePoints_runs_its_loop_witness :
  exists st' x xs,
    calculatePoints 6 parabola (-2) 3 LEFT waiting = Done st' /\
    st' = postAll (map (fun x => evaluate parabola x "add") (x :: xs)) waiting /\
    x = -2.
Proof.
  eexists.
  assert (Hrun : calculatePoints 6 parabola (-2) 3 LEFT waiting = Done ?[st'])
    by (vm_compute; reflexivity).
  destruct (calculatePoints_runs_its_loop 6 parabola (-2) 3 LEFT waiting _ Hrun)
    as (xs & Hst & Hxs & _).
  destruct xs as [|x xs].
  - vm_compute in Hxs. discriminate Hxs.
  - exists x, xs. split; [exact Hrun|]. split; [exact Hst|].
    destruct Hxs as [Hx _]. exact Hx.
Defined.

(** The six abscissas of that batch. *)
Example six_samples_from_minus_two :
  exists st',
    calculatePoints 6 parabola (-2) 3 LEFT waiting = Done st' /\
    Forall2 Qeq (map req_x (posted st')) [-2; -1; 0; 1; 2; 3].
Proof.
  eexists. split; [vm_compute; reflexivity|].
  cbn [posted map req_x]. repeat constructor.
Qed.

(** X4 on two samples to prepend and one to append. *)
Lemma evaluate_responses_fill_the_stream_witness :
  Forall (fun res => res_type res = "evaluate"%string)
         [sample 9 81 "unshift"; sample 1 1 "add"; sample 8 64 "unshift"] /\
  exists st',
    handleMessages 0 [sample 9 81 "unshift"; sample 1 1 "add"; sample 8 64 "unshift"]
                   plotted = Done st' /\
    displayedPoints st' =
      [createPoint 8 64; createPoint 9 81; createPoint 0 0; createPoint 1 1].
Proof.
  assert (H : Forall (fun res : @Response exampleHost => res_type res = "evaluate"%string)
                [sample 9 81 "unshift"; sample 1 1 "add"; sample 8 64 "unshift"])
    by (repeat constructor).
  split; [exact H|].
  destruct (evaluate_responses_fill_the_stream 0 _ plotted H)
    as (st' & Hrun & Hpoints & _).
  exists st'. split; [exact Hrun|exact Hpoints].
Defined.

(** X5 on a batch that came down from 9 to 8. *)
Lemma unshift_batch_reads_upwards_witness :
  exists (st' : @Render exampleHost) (front : list Point),
    handleMessages 0 [sample 9 81 "unshift"; sample 8 64 "unshift"] plotted = Done st' /\
    displayedPoints st' = front ++ displayedPoints plotted /\
    map px front = [8; 9].
Proof.
  assert (H : Forall (fun res : @Response exampleHost =>
                        res_type res = "evaluate"%string /\
                        res_operate res = "unshift"%string /\
                        res_mode res = NORMAL)
                [sample 9 81 "unshift"; sample 8 64 "unshift"])
    by (repeat constructor).
  assert (Hs : StronglySorted (fun r1 r2 : @Response exampleHost => res_x r2 < res_x r1)
                 [sample 9 81 "unshift"; sample 8 64 "unshift"])
    by (repeat constructor).
  destruct (unshift_batch_reads_upwards 0 _ plotted H Hs)
    as (st' & front & Hrun & Hpoints & Hpx & _).
  exists st', front. repeat split; assumption.
Defined.

(** X6 on a sample of radius 3 at angle 0, for a host whose cosine and
    sine are those of 0. *)
Lemma polar_sample_keeps_radius_witness :
  exists p : Point,
    handleCalculatingWorkerMessaging 0 polar_sample plotted =
      Done (set_displayedPoints (displayedPoints plotted ++ [p]) plotted) /\
    px p * px p + py p * py p == 9.
Proof.
  assert (Hpyth : forall t : Q,
            @Math_cos exampleHost t * @Math_cos exampleHost t +
            @Math_sin exampleHost t * @Math_sin exampleHost t == 1)
    by (intros t; reflexivity).
  destruct (polar_sample_keeps_radius 0 polar_sample plotted Hpyth eq_refl eq_refl eq_refl)
    as (p & Hrun & Hr).
  exists p. split; [exact Hrun|exact Hr].
Defined.

(** X7 on the registration of a second function: its batch begins at the
    left edge of the range. *)
Lemma compile_response_registers_and_samples_witness :
  res_type compile_response = "compile"%string /\ camera_ok plotted /\
  eventually (fun fuel => exists st' r rest,
    handleCalculatingWorkerMessaging fuel compile_response plotted = Done st' /\
    functionList st' = [parabola; @newFunction exampleHost 7 NORMAL tt] /\
    displayedPoints st' = displayedPoints plotted /\
    posted st' = r :: rest /\ req_x r = visibleBegin plotted).
Proof.
  assert (Hok : camera_ok plotted) by (split; [reflexivity|discriminate]).
  split; [reflexivity|]. split; [exact Hok|].
  destruct (compile_response_registers_and_samples compile_response plotted eq_refl Hok)
    as [_ Hev].
  apply eventually_impl with (2 := Hev).
  intros fuel (st' & batch & Hrun & Hf & Hp & [_ Hbatch] & Hd & _).
  destruct batch as [|r rest]; [vm_compute in Hbatch; discriminate Hbatch|].
  destruct Hbatch as [Hhead _].
  exists st', r, rest. repeat split; assumption.
Defined.

(** X8 on an edit of position 5 of a list of one function. *)
Lemma compile_and_set_out_of_range_throws_witness :
  res_type stray_edit_response = "compile-and-set"%string /\
  (List.length (functionList plotted) <= res_index stray_edit_response)%nat /\
  handleCalculatingWorkerMessaging 100 stray_edit_response plotted = TypeError.
Proof.
  assert (Hlen : (List.length (functionList plotted)
                  <= res_index stray_edit_response)%nat) by (simpl; lia).
  split; [reflexivity|]. split; [exact Hlen|].
  exact (compile_and_set_out_of_range_throws 100 stray_edit_response plotted
           eq_refl Hlen).
Defined.

(** X9 on a drag of ten pixels to the right. *)
Lemma drag_moves_centre_with_cursor_witness :
  camera_ok plotted /\
  eventually (fun fuel => exists st',
    handleMouseMove fuel origin_rect 60 50 RIGHT
                    (handleMouseDown origin_rect 50 50 plotted) = Done st' /\
    px (center st') == 60 /\ py (center st') == 50).
Proof.
  assert (Hok : camera_ok plotted) by (split; [reflexivity|discriminate]).
  split; [exact Hok|].
  apply eventually_impl with (2 :=
    drag_moves_centre_with_cursor origin_rect 50 50 60 50 RIGHT plotted Hok).
  intros fuel (st' & Hrun & Hx & Hy & _). exists st'.
  split; [exact Hrun|]. split; [rewrite Hx|rewrite Hy]; reflexivity.
Defined.

(** X10 on a drag of ten pixels to the right and back. *)
Lemma drag_centre_follows_last_cursor_witness :
  camera_ok plotted /\
  eventually (fun fuel => exists st1 st2,
    handleMouseMove fuel origin_rect 60 50 RIGHT
                    (handleMouseDown origin_rect 50 50 plotted) = Done st1 /\
    handleMouseMove fuel origin_rect 50 50 LEFT st1 = Done st2 /\
    px (center st2) == 50 /\
    cameraPosition st2 = (visibleBegin st2, visibleEnd st2)).
Proof.
  assert (Hok : camera_ok plotted) by (split; [reflexivity|discriminate]).
  split; [exact Hok|].
  apply eventually_impl with (2 :=
    drag_centre_follows_last_cursor origin_rect 50 50 60 50 50 50 RIGHT LEFT plotted Hok).
  intros fuel (st1 & st2 & Hrun1 & Hrun2 & Hx & _ & Hcam).
  exists st1, st2. split; [exact Hrun1|]. split; [exact Hrun2|].
  split; [rewrite Hx; reflexivity|]. apply Hcam. discriminate.
Defined.

(** X11 on two drag steps to the left, of ten pixels each. *)
Lemma consecutive_pans_stay_in_order_witness :
  camera_ok plotted_pressed /\ mouseDown plotted_pressed = true /\
  displayedPoints plotted_pressed <> [] /\
  eventually (fun fuel => exists st1 st2 first second,
    handleMouseMove fuel origin_rect 40 50 LEFT plotted_pressed = Done st1 /\
    handleMouseMove fuel origin_rect 30 50 LEFT st1 = Done st2 /\
    posted st2 = (posted plotted_pressed ++ first) ++ second /\
    forall a b, In a first -> In b second -> req_x a <= req_x b).
Proof.
  assert (Hok : camera_ok plotted_pressed) by (split; [reflexivity|discriminate]).
  assert (Hne : displayedPoints plotted_pressed <> []) by discriminate.
  split; [exact Hok|]. split; [reflexivity|]. split; [exact Hne|].
  apply eventually_impl with (2 :=
    consecutive_pans_stay_in_order origin_rect 40 50 30 50 LEFT plotted_pressed
      Hok eq_refl Hne).
  intros fuel (st1 & st2 & first & second & Hrun1 & Hrun2 & Hp1 & Hp2 & Hord).
  exists st1, st2, first, second. rewrite Hp1 in Hp2.
  repeat split; assumption.
Defined.

(** The two batches of those steps: [[50, 60]] then [[60, 70]]; the
    abscissa 60, where the second slice starts, is asked for twice. *)
Example two_pans_left_meet_at_60 :
  exists st1 st2,
    handleMouseMove 11 origin_rect 40 50 LEFT plotted_pressed = Done st1 /\
    handleMouseMove 11 origin_rect 30 50 LEFT st1 = Done st2 /\
    Forall2 Qeq (map req_x (posted st2))
      [50; 51; 52; 53; 54; 55; 56; 57; 58; 59; 60;
       60; 61; 62; 63; 64; 65; 66; 67; 68; 69; 70].
Proof.
  eexists. eexists.
  split; [vm_compute; reflexivity|].
  split; [vm_compute; reflexivity|].
  cbn [posted map req_x]. repeat constructor.
Qed.

(** X14 on a wheel step in with the cursor 25 pixels right of the centre:
    the stored range is not the one the canvas shows. *)
Lemma wheel_stores_range_of_old_centre_witness :
  camera_ok pointing /\ displayedPoints pointing <> [] /\
  eventually (fun fuel => exists st',
    handleWheel fuel (-1) pointing = Done st' /\ ~ camera_invariant st').
Proof.
  assert (Hok : camera_ok pointing) by (split; [reflexivity|discriminate]).
  assert (Hne : displayedPoints pointing <> []) by discriminate.
  split; [exact Hok|]. split; [exact Hne|].
  assert (Hs1 : ~ (if Qlt_bool 0 (-1) then scale pointing - 7 / spacing pointing
                   else scale pointing + 7 / spacing pointing) == 0) by discriminate.
  apply eventually_impl with (2 :=
    wheel_stores_range_of_old_centre (-1) pointing Hok Hne Hs1).
  intros fuel (st' & Hrun & _ & Hiff). exists st'. split; [exact Hrun|].
  intros Hinv. apply Hiff in Hinv. discriminate Hinv.
Defined.

(** X15 on a pinch that doubles the distance of the fingers. *)
Lemma pinch_scales_with_the_fingers_witness :
  camera_ok plotted /\
  eventually (fun fuel => exists st1 st2,
    handleTouchZoom fuel origin_rect 0 0 1 0 (handleMouseUp plotted) = Done st1 /\
    handleTouchZoom fuel origin_rect 0 0 2 0 st1 = Done st2 /\
    scale st2 == 2).
Proof.
  assert (Hok : camera_ok plotted) by (split; [reflexivity|discriminate]).
  split; [exact Hok|].
  assert (Hsize : ~ @pinchSize exampleHost origin_rect
                      (0 * ratio plotted) (0 * ratio plotted)
                      (1 * ratio plotted) (0 * ratio plotted) == 0)
    by (intros H; vm_compute in H; discriminate H).
  assert (Hsize2 : ~ @pinchSize exampleHost origin_rect
                       (0 * ratio plotted) (0 * ratio plotted)
                       (2 * ratio plotted) (0 * ratio plotted) == 0)
    by (intros H; vm_compute in H; discriminate H).
  apply eventually_impl with (2 :=
    pinch_scales_with_the_fingers origin_rect 0 0 1 0 0 0 2 0 plotted Hok Hsize Hsize2).
  intros fuel (st1 & st2 & Hrun1 & _ & _ & Hrun2 & Hs & _).
  exists st1, st2. split; [exact Hrun1|]. split; [exact Hrun2|].
  rewrite Hs. vm_compute. reflexivity.
Defined.

(** X16 on a mouse move with the button up. *)
Lemma view_handlers_keep_functions_and_grid_witness :
  0 < spacing plotted /\
  match handleMouseMove 0 origin_rect 60 50 LEFT plotted with
  | Done st' => functionList st' = functionList plotted
  | TypeError => False
  | Diverges => True
  end.
Proof.
  split; [reflexivity|].
  destruct (view_handlers_keep_functions_and_grid 0 origin_rect 60 50 0 0 1 LEFT
              plotted eq_refl) as [Hmove _].
  destruct (handleMouseMove 0 origin_rect 60 50 LEFT plotted); [|exact Hmove|exact I].
  destruct Hmove as [Hf _]. exact Hf.
Defined.

(** X17 on a product of 100, inside the band. *)
Lemma scalingAdapt_settles_in_one_call_witness :
  66 < scale waiting * spacing waiting /\ scale waiting * spacing waiting < 138 /\
  scalingAdapt (scalingAdapt waiting) = scalingAdapt waiting.
Proof.
  assert (Hlo : 66 < scale waiting * spacing waiting) by reflexivity.
  assert (Hhi : scale waiting * spacing waiting < 138) by reflexivity.
  split; [exact Hlo|]. split; [exact Hhi|].
  destruct (scalingAdapt_settles_in_one_call waiting (or_introl (conj Hlo Hhi)))
    as (_ & _ & Hfix).
  exact Hfix.
Defined.

(** X19 on a renderer whose function has no sample yet. *)
Lemma handlers_ask_nothing_on_empty_stream_witness :
  displayedPoints waiting_pressed = [] /\
  exists st',
    handleMouseMove 0 origin_rect 60 50 RIGHT waiting_pressed = Done st' /\
    posted st' = posted waiting_pressed.
Proof.
  split; [reflexivity|].
  destruct (handlers_ask_nothing_on_empty_stream 0 origin_rect 60 50 0 0 1 RIGHT
              waiting_pressed eq_refl) as [(st' & Hrun & Hp & _) _].
  exists st'. split; assumption.
Defined.

(** X21 on the first of the two functions of [two_plotted]: the POLAR
    function that is left is sampled again, from 0. *)
Lemma unregisterFunction_drops_and_resamples_witness :
  (0 < List.length (functionList two_plotted))%nat /\ camera_ok two_plotted /\
  eventually (fun fuel => exists st' r rest,
    unregisterFunction fuel 0 two_plotted = Done st' /\
    functionList st' = [spiral] /\ displayedPoints st' = [] /\
    posted st' = r :: rest /\ req_id r = id spiral /\ req_x r = 0).
Proof.
  assert (Hlt : (0 < List.length (functionList two_plotted))%nat) by (simpl; lia).
  assert (Hok : camera_ok two_plotted) by (split; [reflexivity|discriminate]).
  split; [exact Hlt|]. split; [exact Hok|].
  apply eventually_impl with (2 :=
    unregisterFunction_drops_and_resamples 0 two_plotted Hlt Hok).
  intros fuel (st' & batches & Hrun & Hlen & _ & Hget & Hd & _ & Hp & Hbatches).
  exists st'.
  pose proof (Hget 0%nat (le_n _)) as Hget0.
  destruct (functionList st') as [|func [|func' funcs]]; try discriminate Hlen.
  injection Hget0 as ->.
  inversion Hbatches as [|f batch fs rest0 [Hslice Hbatch] Hrest]; subst.
  inversion Hrest; subst.
  cbn [List.concat posted two_plotted plotted waiting set_displayedPoints
       set_functionList app] in Hp.
  rewrite app_nil_r in Hp.
  destruct batch as [|r rest]; [vm_compute in Hbatch; discriminate Hbatch|].
  destruct Hbatch as [Hhead _].
  destruct Hslice as [Hall _]. inversion Hall as [|r0 l0 (_ & Hid & _) _]; subst.
  exists r, rest. repeat split; assumption.
Defined.

(** X23 on a canvas of 100 by 80 at one pixel per unit. *)
Lemma newRender_is_centred_witness :
  ~ 1 == 0 /\
  camera_invariant (@newRender exampleHost 100 80 1 1 1 (createPoint 0 0)) /\
  fst (cameraPosition (@newRender exampleHost 100 80 1 1 1 (createPoint 0 0))) == -50 /\
  snd (cameraPosition (@newRender exampleHost 100 80 1 1 1 (createPoint 0 0))) == 50.
Proof.
  assert (Hs : ~ 1 == 0) by discriminate.
  split; [exact Hs|].
  destruct (@newRender_is_centred exampleHost 100 80 1 1 1 (createPoint 0 0) Hs)
    as (Hinv & _).
  split; [exact Hinv|split; reflexivity].
Defined.
